(** * lda/document.go: documents, word iterators and corpus loading

    A shallow embedding of [src/lda/document.go] and the properties of its
    natural-language specification.

    Conventions of the embedding.
    - Go's [int] is a 64-bit two's complement integer.  It is a [Z]; every
      [++], [--] and [+ 1] of the source goes through [wrap].
    - A slice is a [list]; [s[i]] is [index], [s[i] = x] is [store], both
      panic out of range as the Go runtime does.  [len] is the length as
      an [int].
    - A function that returns [(T, error)] or may panic returns an
      [outcome T]: [Ret] for a normal return, [Err] for a returned error
      and [Panic] for a panic.
    - A Go string is a sequence of bytes, a [string] of Rocq.  The library
      functions [strings.ToLower] and [strings.Fields] are transcribed on
      their ASCII path (the one Go itself takes on a string without a byte
      above 0x7f); the regular expression of [SymbolsRegexp] only names
      ASCII bytes.
    - [*Document] in a [WordIterator] is a pointer.  All the properties
      below concern one iterator over one document, so the state of the
      iterator carries the current contents of the document it points
      to. *)

From Stdlib Require Import ZArith Ascii Lia.
From stdpp Require Import base list sorting strings.

Local Open Scope Z_scope.

(** ** Machine integers *)

Definition int_min : Z := - 2 ^ 63.
Definition int_max : Z := 2 ^ 63 - 1.

Definition wrap (z : Z) : Z := (z + 2 ^ 63) `mod` 2 ^ 64 - 2 ^ 63.

Definition int_add (a b : Z) : Z := wrap (a + b).
Definition int_sub (a b : Z) : Z := wrap (a - b).

(** ** Outcomes: return, returned error, panic *)

Inductive error : Type :=
  | ErrNumTopics                       (* "num_topics must be >= 2" *)
  | ErrTooFewWords (text : string)     (* "Document less than 2 words:" + text *)
  | ErrInvalidDocument                 (* "Document is invalid" *)
  | ErrNilDocument                     (* "NewWordIterator with a nil *Document" *)
  | ErrIterInvalidDocument             (* "NewWordIterator with an invalid Document" *)
  | ErrCannotOpen                      (* "Cannot open file: " + filename *)
  | ErrLongLine (line : string)        (* "Encountered a long line:" + line *)
  | ErrReading (e : string).           (* "Error reading: " + filename + err.Error() *)

Inductive panic : Type :=
  | PanicIndexOutOfRange               (* the runtime's bounds check *)
  | PanicUniqueWordIndex (i n : Z)     (* Done: unique_word_index > len(unique_words) *)
  | PanicDone                          (* "Must not call Next() when Done() is true." *)
  | PanicNegativeTopic                 (* "new_topic is less than 0" *)
  | PanicTopicTooLarge (t : Z)         (* "new_topic (%d) > iter.doc.topic_histogram (%d)" *)
  | PanicCannotCreate (line : string) (e : error).
                                       (* "Cannot create document from: " ... *)

Inductive outcome (A : Type) : Type :=
  | Ret (a : A)
  | Err (e : error)
  | Panic (p : panic).

Arguments Ret {A} a.
Arguments Err {A} e.
Arguments Panic {A} p.

#[global] Instance outcome_ret : MRet outcome := @Ret.

#[global] Instance outcome_bind : MBind outcome := λ A B k m,
  match m with
  | Ret a => k a
  | Err e => Err e
  | Panic p => Panic p
  end.

(** ** Slices *)

Definition len {A} (s : list A) : Z := Z.of_nat (length s).

Definition index {A} (s : list A) (i : Z) : outcome A :=
  if bool_decide (0 ≤ i < len s) then
    match s !! Z.to_nat i with
    | Some x => Ret x
    | None => Panic PanicIndexOutOfRange
    end
  else Panic PanicIndexOutOfRange.

Definition store {A} (s : list A) (i : Z) (x : A) : outcome (list A) :=
  if bool_decide (0 ≤ i < len s) then Ret (<[Z.to_nat i := x]> s)
  else Panic PanicIndexOutOfRange.

(** ** Strings: the library functions [NewDocument] calls *)

Definition byte (n : nat) : ascii := ascii_of_nat n.

(** The alternatives of [SymbolsRegexp]: semicolon, full stop, comma,
    question mark, exclamation mark, double quote and colon. *)
Definition is_symbol (c : ascii) : bool :=
  existsb (Ascii.eqb c) [byte 59; byte 46; byte 44; byte 63; byte 33; byte 34; byte 58].

Fixpoint string_filter (keep : ascii → bool) (s : string) : string :=
  match s with
  | EmptyString => EmptyString
  | String c s' =>
      if keep c then String c (string_filter keep s') else string_filter keep s'
  end.

(** [SymbolsRegexp.ReplaceAllString] with the empty string: every match,
    a single byte, is deleted. *)
Definition RemoveTailingSymbols (word : string) : string :=
  string_filter (λ c, negb (is_symbol c)) word.

Definition lower (c : ascii) : ascii :=
  let n := nat_of_ascii c in
  if (65 <=? n)%nat && (n <=? 90)%nat then ascii_of_nat (n + 32) else c.

Fixpoint ToLower (s : string) : string :=
  match s with
  | EmptyString => EmptyString
  | String c s' => String (lower c) (ToLower s')
  end.

(** The ASCII white space of [strings.Fields]: tab, line feed, vertical
    tab, form feed, carriage return and space. *)
Definition is_space (c : ascii) : bool :=
  existsb (Ascii.eqb c) [byte 9; byte 10; byte 11; byte 12; byte 13; byte 32].

Definition flush (field : string) : list string :=
  match field with
  | EmptyString => []
  | _ => [field]
  end.

Fixpoint Fields_from (field : string) (s : string) : list string :=
  match s with
  | EmptyString => flush field
  | String c s' =>
      if is_space c then flush field ++ Fields_from EmptyString s'
      else Fields_from (field +:+ String c EmptyString) s'
  end.

(** [strings.Fields]: the maximal runs of bytes that are not white space. *)
Definition Fields (s : string) : list string := Fields_from EmptyString s.

(** Go compares strings byte by byte; so does [String.leb]. *)
Definition string_le (a b : string) : Prop := String.leb a b = true.

#[global] Instance string_le_dec a b : Decision (string_le a b).
Proof. unfold string_le. apply _. Defined.

(** [sort.Strings].  The result of sorting a slice of strings does not
    depend on the algorithm (see [sort_Strings_unique]); merge sort stands
    for the library's. *)
Definition sort_Strings (words : list string) : list string :=
  merge_sort string_le words.

(** ** Documents *)

(** Modelled from the spec: [Histogram] is declared outside document.go.
    The spec calls it a sequence of K integers, and [NewDocument] assigns
    [make([]int, num_topics)] to it: a slice of [int]. *)
Abbreviation Histogram := (list Z).

Record Document : Type := mkDocument {
  unique_words : list string;
  wordtopics_indices : list Z;
  wordtopics : list Z;
  topic_histogram : Histogram;
}.

Abbreviation Corpus := (list Document).

Definition IsValid (d : Document) : bool :=
  (1 <=? len (unique_words d)) &&
  (len (wordtopics_indices d) =? len (wordtopics d)) &&
  (2 <=? len (wordtopics d)) &&
  (2 <=? len (topic_histogram d)).

Definition Length (d : Document) : Z := len (wordtopics d).

(** The loop of [NewDocument], at iteration [i] with [rest] the words
    from [words[i]] on. *)
Fixpoint NewDocument_loop (rest : list string) (i : Z) (prev_word : string)
    (uw : list string) (idx : list Z) : outcome (list string * list Z) :=
  match rest with
  | [] => Ret (uw, idx)
  | w :: rest' =>
      if negb (String.eqb w prev_word) then
        NewDocument_loop rest' (int_add i 1) w (uw ++ [w]) (idx ++ [i])
      else
        start ← index idx (int_sub (len idx) 1);
        NewDocument_loop rest' (int_add i 1) prev_word uw (idx ++ [start])
  end.

Definition NewDocument (text : string) (num_topics : Z) : outcome Document :=
  if num_topics <=? 1 then Err ErrNumTopics else
  let words := Fields (ToLower (RemoveTailingSymbols text)) in
  if len words <=? 1 then Err (ErrTooFewWords text) else
  let words := sort_Strings words in
  let labels := replicate (length words) 0 in
  hist ← store (replicate (Z.to_nat num_topics) 0) 0 (len words);
  '(uw, idx) ← NewDocument_loop words 0 EmptyString [] [];
  let doc := mkDocument uw idx labels hist in
  if negb (IsValid doc) then Err ErrInvalidDocument else Ret doc.

(** ** Word iterators *)

Record WordIterator : Type := mkWordIterator {
  doc : Document;            (* the document [iter.doc] points to *)
  unique_word_index : Z;     (* Index in doc.unique_words. *)
  word_topic_index : Z;      (* Index in doc.wordtopics. *)
}.

(** [None] is the nil pointer. *)
Definition NewWordIterator (d : option Document) : outcome WordIterator :=
  match d with
  | None => Err ErrNilDocument
  | Some d =>
      if negb (IsValid d) then Err ErrIterInvalidDocument
      else Ret (mkWordIterator d 0 0)
  end.

Definition Done (iter : WordIterator) : outcome bool :=
  if len (unique_words (doc iter)) <? unique_word_index iter then
    Panic (PanicUniqueWordIndex (unique_word_index iter)
             (len (unique_words (doc iter))))
  else Ret (unique_word_index iter =? len (unique_words (doc iter))).

Definition Next (iter : WordIterator) : outcome WordIterator :=
  finished ← Done iter;
  if finished : bool then Panic PanicDone else
  let wti := int_add (word_topic_index iter) 1 in
  if len (wordtopics (doc iter)) <=? wti then
    Ret (mkWordIterator (doc iter) (int_add (unique_word_index iter) 1) wti)
  else
    bound ← index (wordtopics_indices (doc iter))
                  (int_add (unique_word_index iter) 1);
    if bound <=? wti then
      Ret (mkWordIterator (doc iter) (int_add (unique_word_index iter) 1) wti)
    else Ret (mkWordIterator (doc iter) (unique_word_index iter) wti).

Definition Topic (iter : WordIterator) : outcome Z :=
  finished ← Done iter;
  if finished : bool then Panic PanicDone else
  index (wordtopics (doc iter)) (word_topic_index iter).

Definition SetTopic (new_topic : Z) (iter : WordIterator) : outcome WordIterator :=
  finished ← Done iter;
  if finished : bool then Panic PanicDone else
  if new_topic <? 0 then Panic PanicNegativeTopic else
  if len (topic_histogram (doc iter)) <=? new_topic then
    Panic (PanicTopicTooLarge new_topic)
  else
    old_topic ← Topic iter;
    n_old ← index (topic_histogram (doc iter)) old_topic;
    hist1 ← store (topic_histogram (doc iter)) old_topic (int_sub n_old 1);
    n_new ← index hist1 new_topic;
    hist2 ← store hist1 new_topic (int_add n_new 1);
    labels ← store (wordtopics (doc iter)) (word_topic_index iter) new_topic;
    Ret (mkWordIterator
           (mkDocument (unique_words (doc iter)) (wordtopics_indices (doc iter))
              labels hist2)
           (unique_word_index iter) (word_topic_index iter)).

Definition Word (iter : WordIterator) : outcome string :=
  finished ← Done iter;
  if finished : bool then Panic PanicDone else
  index (unique_words (doc iter)) (unique_word_index iter).

(** ** Loading a corpus *)

(** The file [LoadCorpus] reads, as its [bufio.Reader] shows it: the
    results [(line, isPrefix)] of the calls of [ReadLine] that succeed, in
    order, then the error of the call that fails: [None] for [io.EOF],
    [Some e] for any other error. *)
Record reader : Type := mkReader {
  reads : list (string * bool);
  final : option string;
}.

Definition string_len (s : string) : Z := Z.of_nat (String.length s).

(** The body of the loop of [LoadCorpus] on the line [l] just read. *)
Definition LoadCorpus_line (num_topics : Z) (is_prefix : bool) (corpus : Corpus)
    (l : string) : outcome Corpus :=
  if is_prefix then Err (ErrLongLine l) else
  if 15 <? string_len l then
    match NewDocument l num_topics with
    | Ret d => Ret (corpus ++ [d])
    | Err e => Panic (PanicCannotCreate l e)
    | Panic p => Panic p
    end
  else Ret corpus.

(** The loop: [pending] are the reads that succeed from the current one
    on.  [is_prefix] is the variable of the source: the loop reads the next
    line with [l, _, err = reader.ReadLine()], which does not assign it. *)
Fixpoint LoadCorpus_loop (num_topics : Z) (is_prefix : bool) (corpus : Corpus)
    (pending : list (string * bool)) : outcome Corpus :=
  match pending with
  | [] => Ret corpus
  | (l, _) :: pending' =>
      corpus' ← LoadCorpus_line num_topics is_prefix corpus l;
      LoadCorpus_loop num_topics is_prefix corpus' pending'
  end.

(** [None] is a file that [os.OpenFile] cannot open. *)
Definition LoadCorpus (file : option reader) (num_topics : Z) : outcome Corpus :=
  match file with
  | None => Err ErrCannotOpen
  | Some r =>
      let is_prefix := match reads r with (_, p) :: _ => p | [] => false end in
      corpus ← LoadCorpus_loop num_topics is_prefix [] (reads r);
      match final r with
      | None => Ret corpus
      | Some e => Err (ErrReading e)
      end
  end.

(** ** Running an iterator *)

Inductive op : Type :=
  | OpNext
  | OpSetTopic (new_topic : Z)
  | OpTopic
  | OpWord.

(** [Topic] and [Word] have value receivers and only read. *)
Definition exec (o : op) (iter : WordIterator) : outcome WordIterator :=
  match o with
  | OpNext => Next iter
  | OpSetTopic t => SetTopic t iter
  | OpTopic => _ ← Topic iter; Ret iter
  | OpWord => _ ← Word iter; Ret iter
  end.

Fixpoint run (ops : list op) (iter : WordIterator) : outcome WordIterator :=
  match ops with
  | [] => Ret iter
  | o :: ops' => iter' ← exec o iter; run ops' iter'
  end.

(** [Next], [n] times. *)
Fixpoint advance (n : nat) (iter : WordIterator) : outcome WordIterator :=
  match n with
  | O => Ret iter
  | S n' => iter' ← Next iter; advance n' iter'
  end.

Definition open (text : string) (num_topics : Z) : outcome WordIterator :=
  d ← NewDocument text num_topics; NewWordIterator (Some d).

(** ** Notions of the specification *)

(** The number of occurrences labelled [t]. *)
Fixpoint count (t : Z) (labels : list Z) : Z :=
  match labels with
  | [] => 0
  | x :: labels' => (if bool_decide (x = t) then 1 else 0) + count t labels'
  end.

Definition sumZ (l : list Z) : Z := foldr Z.add 0 l.

(** The tokens of a text, in the order of the text. *)
Definition tokens (text : string) : list string :=
  Fields (ToLower (RemoveTailingSymbols text)).

(** [k] is the start of the run of equal words that holds position [j]. *)
Definition run_start (ws : list string) (j k : nat) : Prop :=
  (k ≤ j)%nat ∧
  (∀ m, (k ≤ m ≤ j)%nat → ws !! m = ws !! j) ∧
  (∀ m, (m < k)%nat → ws !! m ≠ ws !! j).

Definition string_lt (a b : string) : Prop := string_le a b ∧ a ≠ b.

(** The invariant of the loop of [NewDocument] over the sorted words [ws],
    when the words of [pre] have been seen. *)
Record loop_inv (ws pre : list string) (prev_word : string)
    (uw : list string) (idx : list Z) : Prop := mkLoopInv {
  inv_len : length idx = length pre;
  inv_prev : prev_word = default EmptyString (last pre);
  inv_starts : ∀ j w, pre !! j = Some w →
    ∃ k, idx !! j = Some (Z.of_nat k) ∧ run_start ws j k;
  inv_uw_sorted : StronglySorted string_lt uw;
  inv_uw_elem : ∀ w, w ∈ uw ↔ w ∈ pre;
}.

(** [hist[old]--; hist[new]++] on counts that do not overflow. *)
Definition move_count (hist : list Z) (old new : Z) : list Z :=
  let hist1 := <[Z.to_nat old := default 0 (hist !! Z.to_nat old) - 1]> hist in
  <[Z.to_nat new := default 0 (hist1 !! Z.to_nat new) + 1]> hist1.

(** What construction establishes and the iterator preserves. *)
Record wf (d : Document) : Prop := mkWf {
  wf_U : 1 ≤ len (unique_words d) ≤ len (wordtopics d);
  wf_idx_len : len (wordtopics_indices d) = len (wordtopics d);
  wf_N : 2 ≤ len (wordtopics d) ≤ int_max;
  wf_K : 2 ≤ len (topic_histogram d);
  wf_idx : ∀ (j : nat) x, wordtopics_indices d !! j = Some x → 0 ≤ x ≤ Z.of_nat j;
  wf_labels : Forall (λ t, 0 ≤ t < len (topic_histogram d)) (wordtopics d);
  wf_hist : ∀ t : nat, (t < length (topic_histogram d))%nat →
    topic_histogram d !! t = Some (count (Z.of_nat t) (wordtopics d));
  wf_sum : sumZ (topic_histogram d) = len (wordtopics d);
}.

(** The states of an iterator over the document built as [d0]. *)
Record iter_inv (d0 : Document) (iter : WordIterator) : Prop := mkIterInv {
  ii_words : unique_words (doc iter) = unique_words d0;
  ii_idx : wordtopics_indices (doc iter) = wordtopics_indices d0;
  ii_N : len (wordtopics (doc iter)) = len (wordtopics d0);
  ii_K : len (topic_histogram (doc iter)) = len (topic_histogram d0);
  ii_wf : wf (doc iter);
  ii_pos : unique_word_index iter = word_topic_index iter;
  ii_range : 0 ≤ unique_word_index iter ≤ len (unique_words (doc iter));
}.

(** The structure of the offsets as the specification has it: one entry
    per distinct word and a closing entry N. *)
Definition group_offsets_claimed (d : Document) : Prop :=
  len (wordtopics_indices d) = len (unique_words d) + 1 ∧
  Forall (λ x, 0 ≤ x) (wordtopics_indices d) ∧
  Sorted Z.le (wordtopics_indices d) ∧
  head (wordtopics_indices d) = Some 0 ∧
  last (wordtopics_indices d) = Some (Length d).

(** The invariants of the data model of the specification. *)
Definition invariants_claimed (d : Document) : Prop :=
  1 ≤ len (unique_words d) ∧ 2 ≤ Length d ∧ 2 ≤ len (topic_histogram d) ∧
  StronglySorted string_lt (unique_words d) ∧
  group_offsets_claimed d ∧
  (∀ t, 0 ≤ t < len (topic_histogram d) →
     index (topic_histogram d) t = Ret (count t (wordtopics d))).

(** What [IsValid] checks. *)
Definition sizes_ok (d : Document) : Prop :=
  1 ≤ len (unique_words d) ∧
  len (wordtopics_indices d) = len (wordtopics d) ∧
  2 ≤ len (wordtopics d) ∧
  2 ≤ len (topic_histogram d).

(** Loading as the specification has it: a line shorter than 15 bytes is
    skipped, any other line is built; an oversized line fails the load and
    a line that cannot be built is fatal. *)
Fixpoint load_corpus_claimed (num_topics : Z) (corpus : Corpus)
    (lines : list (string * bool)) : outcome Corpus :=
  match lines with
  | [] => Ret corpus
  | (l, oversized) :: lines' =>
      if oversized : bool then Err (ErrLongLine l)
      else if string_len l <? 15 then load_corpus_claimed num_topics corpus lines'
      else
        match NewDocument l num_topics with
        | Ret d => load_corpus_claimed num_topics (corpus ++ [d]) lines'
        | Err e => Panic (PanicCannotCreate l e)
        | Panic p => Panic p
        end
  end.

(** A line that is long enough can be built. *)
Definition builds (num_topics : Z) (l : string) : Prop :=
  15 < string_len l → ∃ d, NewDocument l num_topics = Ret d.

(** The histogram of [d] counts its labels, over [K] topics and [N]
    occurrences. *)
Definition histogram_consistent (d : Document) (K N : Z) : Prop :=
  len (topic_histogram d) = K ∧
  (∀ t, 0 ≤ t < K →
     index (topic_histogram d) t = Ret (count t (wordtopics d))) ∧
  sumZ (topic_histogram d) = N.

(** What the operation [o], taking [iter] to [iter'], leaves alone. *)
Definition frame (o : op) (iter iter' : WordIterator) : Prop :=
  unique_words (doc iter') = unique_words (doc iter) ∧
  wordtopics_indices (doc iter') = wordtopics_indices (doc iter) ∧
  Length (doc iter') = Length (doc iter) ∧
  len (topic_histogram (doc iter')) = len (topic_histogram (doc iter)) ∧
  match o with
  | OpSetTopic new_topic =>
      ∃ old_topic,
        Topic iter = Ret old_topic ∧
        (∀ i : nat, i ≠ Z.to_nat (word_topic_index iter) →
           wordtopics (doc iter') !! i = wordtopics (doc iter) !! i) ∧
        (∀ u : nat, u ≠ Z.to_nat old_topic → u ≠ Z.to_nat new_topic →
           topic_histogram (doc iter') !! u = topic_histogram (doc iter) !! u)
  | _ => doc iter' = doc iter
  end.

(** The number of advances in a sequence of operations. *)
Fixpoint count_next (ops : list op) : Z :=
  match ops with
  | [] => 0
  | OpNext :: ops' => 1 + count_next ops'
  | _ :: ops' => count_next ops'
  end.

Fixpoint string_forallb (p : ascii → bool) (s : string) : bool :=
  match s with
  | EmptyString => true
  | String c s' => p c && string_forallb p s'
  end.

Definition is_upper (c : ascii) : bool :=
  let n := nat_of_ascii c in (65 <=? n)%nat && (n <=? 90)%nat.

(** A byte that [NewDocument] leaves in a word: no white space, none of
    the symbols, no upper case letter. *)
Definition normal_char (c : ascii) : bool :=
  negb (is_space c) && negb (is_symbol c) && negb (is_upper c).

(** ** Examples *)

Definition cat_text : string := "The cat sat on the Mat.".

Definition cat_doc : Document :=
  mkDocument ["cat"; "mat"; "on"; "sat"; "the"] [0; 1; 2; 3; 4; 4]
    [0; 0; 0; 0; 0; 0] [6; 0; 0].

Definition cat_ops : list op :=
  [OpWord; OpSetTopic 1; OpNext; OpNext; OpTopic; OpNext; OpNext; OpSetTopic 2].

Definition cat_iter : WordIterator :=
  mkWordIterator
    (mkDocument ["cat"; "mat"; "on"; "sat"; "the"] [0; 1; 2; 3; 4; 4]
       [1; 0; 0; 0; 2; 0] [4; 1; 1]) 4 4.

Definition cat_iter_reset : WordIterator :=
  mkWordIterator
    (mkDocument ["cat"; "mat"; "on"; "sat"; "the"] [0; 1; 2; 3; 4; 4]
       [1; 0; 0; 0; 0; 0] [5; 1; 0]) 4 4.

Definition bad_doc : Document := mkDocument ["b"; "a"] [1; 0] [0; 0] [3; 4].

Definition line15 : string := "abcdefg hijklmn".

Definition line15_doc : Document :=
  mkDocument ["abcdefg"; "hijklmn"] [0; 1] [0; 0] [2; 0].

Fixpoint repeat_string (n : nat) (s : string) : string :=
  match n with
  | O => EmptyString
  | S n' => s +:+ repeat_string n' s
  end.

(** A file with a second line longer than the 4096 bytes of the buffer of
    [bufio.NewReader]: [ReadLine] returns its first 4096 bytes with
    [isPrefix] set, then the rest. *)
Definition long_second_line : reader :=
  mkReader
    [("this line is long enough", false);
     (repeat_string 1024 "abc ", true);
     ("the rest of the long line", false)]
    None.

Definition cat_start : WordIterator := mkWordIterator cat_doc 0 0.

Definition cat_iter_1 : WordIterator :=
  mkWordIterator
    (mkDocument ["cat"; "mat"; "on"; "sat"; "the"] [0; 1; 2; 3; 4; 4]
       [1; 0; 0; 0; 1; 0] [4; 2; 0]) 4 4.

Definition cat_iter_0 : WordIterator :=
  mkWordIterator
    (mkDocument ["cat"; "mat"; "on"; "sat"; "the"] [0; 1; 2; 3; 4; 4]
       [1; 0; 0; 0; 0; 0] [5; 1; 0]) 4 4.

Definition two_lines : reader :=
  mkReader [("short", false); ("this line is long enough", false)] None.

Definition two_lines_doc : Document :=
  mkDocument ["enough"; "is"; "line"; "long"; "this"] [0; 1; 2; 3; 4]
    [0; 0; 0; 0; 0] [5; 0].

Example run_cat : run cat_ops (mkWordIterator cat_doc 0 0) = Ret cat_iter.
Proof. vm_compute. reflexivity. Qed.

Example NewDocument_cat : NewDocument cat_text 3 = Ret cat_doc.
Proof. vm_compute. reflexivity. Qed.

Example walk_cat :
  (it ← open "The cat sat on the Mat." 3;
   it ← advance 4 it;
   it ← SetTopic 2 it;
   it ← Next it;
   f ← Done it;
   Ret (f, doc it)) =
  Ret (true, mkDocument ["cat"; "mat"; "on"; "sat"; "the"] [0; 1; 2; 3; 4; 4]
         [0; 0; 0; 0; 2; 0] [5; 0; 1]).
Proof. vm_compute. reflexivity. Qed.

(** ** Machine integers and slices *)

Lemma wrap_id z : int_min ≤ z ≤ int_max → wrap z = z.
Proof.
  unfold wrap, int_min, int_max. intros Hz.
  rewrite Z.mod_small; lia.
Qed.

Lemma len_nonneg {A} (s : list A) : 0 ≤ len s.
Proof. unfold len. lia. Qed.

Lemma len_app {A} (s1 s2 : list A) : len (s1 ++ s2) = len s1 + len s2.
Proof. unfold len. rewrite length_app. lia. Qed.

Lemma index_Ret {A} (s : list A) i x :
  index s i = Ret x ↔ 0 ≤ i < len s ∧ s !! Z.to_nat i = Some x.
Proof.
  unfold index. case_bool_decide as Hi.
  - destruct (s !! Z.to_nat i) eqn:E; split.
    + intros [= ->]. done.
    + intros [_ [= ->]]. done.
    + done.
    + intros [_ ?]. done.
  - split; [done | intros [? _]; done].
Qed.

Lemma index_nat {A} (s : list A) (j : nat) x :
  s !! j = Some x → index s (Z.of_nat j) = Ret x.
Proof.
  intros Hj. apply index_Ret. rewrite Nat2Z.id. split; [| done].
  apply lookup_lt_Some in Hj. unfold len. lia.
Qed.

Lemma store_Ret {A} (s : list A) i x s' :
  store s i x = Ret s' ↔ 0 ≤ i < len s ∧ s' = <[Z.to_nat i := x]> s.
Proof.
  unfold store. case_bool_decide as Hi; split.
  - intros [= <-]. done.
  - intros [_ ->]. done.
  - done.
  - intros [? _]. done.
Qed.

Lemma store_in_range {A} (s : list A) i x :
  0 ≤ i < len s → store s i x = Ret (<[Z.to_nat i := x]> s).
Proof. intros Hi. apply store_Ret. done. Qed.

(** ** Counting labels *)

Lemma count_bounds t l : 0 ≤ count t l ≤ len l.
Proof.
  unfold len. induction l as [|x l IH]; simpl; [lia |].
  case_bool_decide; lia.
Qed.

Lemma count_lookup t l i : l !! i = Some t → 1 ≤ count t l.
Proof.
  revert i. induction l as [|x l IH]; intros [|i] Hi; simplify_eq/=.
  - rewrite bool_decide_true by done. pose proof (count_bounds t l). lia.
  - apply IH in Hi. case_bool_decide; lia.
Qed.

Lemma count_insert t l i old new :
  l !! i = Some old →
  count t (<[i := new]> l) =
  count t l - (if bool_decide (old = t) then 1 else 0)
            + (if bool_decide (new = t) then 1 else 0).
Proof.
  revert i. induction l as [|x l IH]; intros [|i] Hi; simplify_eq/=.
  - lia.
  - rewrite (IH _ Hi). lia.
Qed.

Lemma count_replicate_0 t n :
  count t (replicate n 0) = if bool_decide (0 = t) then Z.of_nat n else 0.
Proof.
  induction n as [|n IH]; simpl.
  - by case_bool_decide.
  - rewrite IH. case_bool_decide; lia.
Qed.

Lemma sumZ_insert l i old new :
  l !! i = Some old → sumZ (<[i := new]> l) = sumZ l - old + new.
Proof.
  revert i. induction l as [|x l IH]; intros [|i] Hi; simplify_eq/=.
  - lia.
  - rewrite (IH _ Hi). lia.
Qed.

Lemma sumZ_replicate_0 n : sumZ (replicate n 0) = 0.
Proof. induction n as [|n IH]; simpl; [done | by rewrite IH]. Qed.

(** ** The order of strings and [sort.Strings] *)

Lemma string_leb_trans a b c :
  String.leb a b = true → String.leb b c = true → String.leb a c = true.
Proof.
  unfold String.leb. revert b c.
  induction a as [|x a IH]; intros [|y b] [|z c]; simpl; try done.
  unfold Ascii.compare.
  destruct (N.compare_spec (N_of_ascii x) (N_of_ascii y)),
           (N.compare_spec (N_of_ascii y) (N_of_ascii z)),
           (N.compare_spec (N_of_ascii x) (N_of_ascii z));
    try done; try lia; eauto.
Qed.

#[global] Instance string_le_trans : Transitive string_le.
Proof. intros a b c. apply string_leb_trans. Qed.

#[global] Instance string_le_total : Total string_le.
Proof. intros a b. apply String.leb_total. Qed.

#[global] Instance string_le_antisymm : AntiSymm (=) string_le.
Proof. intros a b. apply String.leb_antisym. Qed.

Lemma sort_Strings_sorted words : StronglySorted string_le (sort_Strings words).
Proof. apply (StronglySorted_merge_sort string_le). Qed.

Lemma sort_Strings_perm words : sort_Strings words ≡ₚ words.
Proof. apply (merge_sort_Permutation string_le). Qed.

Lemma sort_Strings_length words : length (sort_Strings words) = length words.
Proof. apply Permutation_length, sort_Strings_perm. Qed.

(** Whatever the sorting algorithm of the library, its result is the one
    of [sort_Strings]. *)
Lemma sort_Strings_unique words sorted :
  sorted ≡ₚ words → StronglySorted string_le sorted →
  sorted = sort_Strings words.
Proof.
  intros Hperm Hsorted.
  apply (StronglySorted_unique string_le); [done | apply sort_Strings_sorted |].
  by rewrite sort_Strings_perm.
Qed.

Lemma StronglySorted_lookup (ws : list string) i j x y :
  StronglySorted string_le ws → (i < j)%nat →
  ws !! i = Some x → ws !! j = Some y → string_le x y.
Proof.
  intros Hs. revert i j. induction Hs as [|w ws Hs IH Hall]; intros i j Hij Hi Hj.
  - done.
  - destruct j as [|j]; [lia |]. destruct i as [|i]; simplify_eq/=.
    + rewrite Forall_forall in Hall. apply Hall.
      by apply list_elem_of_lookup_2 in Hj.
    + apply (IH i j); [lia | done | done].
Qed.

(** ** The tokens *)

Lemma flush_nonempty field : Forall (λ w, w ≠ EmptyString) (flush field).
Proof. destruct field; simpl; [constructor | by repeat constructor]. Qed.

Lemma Fields_from_nonempty s :
  ∀ field, Forall (λ w, w ≠ EmptyString) (Fields_from field s).
Proof.
  induction s as [|c s IH]; intros field; simpl.
  - apply flush_nonempty.
  - destruct (is_space c); [| apply IH].
    apply Forall_app. split; [apply flush_nonempty | apply IH].
Qed.

Lemma Fields_nonempty s : Forall (λ w, w ≠ EmptyString) (Fields s).
Proof. apply Fields_from_nonempty. Qed.

Lemma Fields_from_length s :
  ∀ field,
    (length (Fields_from field s) ≤ length (flush field) + String.length s)%nat.
Proof.
  induction s as [|c s IH]; intros field; simpl.
  - lia.
  - destruct (is_space c).
    + rewrite length_app. specialize (IH EmptyString). simpl in IH. lia.
    + specialize (IH (field +:+ String c EmptyString)).
      assert (length (flush (field +:+ String c EmptyString)) ≤ 1)%nat
        by (destruct (field +:+ String c EmptyString); simpl; lia).
      lia.
Qed.

Lemma string_filter_length keep s :
  (String.length (string_filter keep s) ≤ String.length s)%nat.
Proof. induction s as [|c s IH]; simpl; [lia |]. destruct (keep c); simpl; lia. Qed.

Lemma ToLower_length s : String.length (ToLower s) = String.length s.
Proof. induction s as [|c s IH]; simpl; [done | by rewrite IH]. Qed.

Lemma tokens_length text : len (tokens text) ≤ string_len text.
Proof.
  unfold tokens, Fields, len, string_len.
  pose proof (Fields_from_length (ToLower (RemoveTailingSymbols text)) EmptyString) as H.
  rewrite ToLower_length in H. simpl in H.
  pose proof (string_filter_length (λ c, negb (is_symbol c)) text).
  unfold RemoveTailingSymbols in *. lia.
Qed.

Lemma tokens_nonempty text : Forall (λ w, w ≠ EmptyString) (tokens text).
Proof. apply Fields_nonempty. Qed.

(** ** The loop of [NewDocument] *)

Section loop.
Variable ws : list string.
Hypothesis ws_sorted : StronglySorted string_le ws.
Hypothesis ws_nonempty : Forall (λ w, w ≠ EmptyString) ws.
Hypothesis ws_len : len ws ≤ int_max.

Lemma loop_inv_init : loop_inv ws [] EmptyString [] [].
Proof.
  split; try done. constructor.
Qed.

(** Every word seen so far is at most the last one seen. *)
Lemma seen_le_last pre rest w prev m x :
  ws = pre ++ w :: rest → last pre = Some prev → (m < length pre)%nat →
  ws !! m = Some x → string_le x prev ∧ string_le prev w.
Proof.
  intros Hws Hlast Hm Hx.
  rewrite last_lookup in Hlast.
  assert (ws !! pred (length pre) = Some prev) as Hp
    by (rewrite Hws; by apply lookup_app_l_Some).
  assert (ws !! length pre = Some w) as Hw
    by (rewrite Hws, lookup_app_r, Nat.sub_diag by lia; done).
  split.
  - destruct (decide (m = pred (length pre))) as [-> | Hne].
    + rewrite Hp in Hx. injection Hx as <-.
      destruct (string_le_total prev prev); done.
    + eapply (StronglySorted_lookup ws m (pred (length pre))); eauto; lia.
  - eapply (StronglySorted_lookup ws (pred (length pre)) (length pre)); eauto; lia.
Qed.

Lemma loop_inv_new pre rest w prev uw idx :
  ws = pre ++ w :: rest → loop_inv ws pre prev uw idx → w ≠ prev →
  loop_inv ws (pre ++ [w]) w (uw ++ [w]) (idx ++ [len pre]).
Proof.
  intros Hws [Hlen Hprev Hstarts Hsorted Helem] Hne.
  assert (ws !! length pre = Some w) as Hw
    by (rewrite Hws, lookup_app_r, Nat.sub_diag by lia; done).
  assert (∀ m x, (m < length pre)%nat → ws !! m = Some x →
                 string_le x w ∧ x ≠ w) as Hbelow.
  { intros m x Hm Hx.
    destruct (last pre) as [p|] eqn:Hlast.
    - simpl in Hprev. subst p.
      destruct (seen_le_last pre rest w prev m x Hws Hlast Hm Hx) as [H1 H2].
      split; [by etrans |].
      intros ->. apply Hne. by apply (anti_symm string_le).
    - apply last_None in Hlast. subst pre. simpl in Hm. lia. }
  split.
  - rewrite !length_app, Hlen. done.
  - by rewrite last_snoc.
  - intros j x Hj. apply lookup_snoc_Some in Hj as [[Hj Hx] | Hj].
    + destruct (Hstarts j x Hx) as (k & Hk & Hrun).
      exists k. split; [by apply lookup_app_l_Some | done].
    + destruct Hj as [Hj Hx]. subst j x. exists (length pre). split.
      * rewrite lookup_app_r, Hlen, Nat.sub_diag by lia. done.
      * split; [lia |]. split.
        -- intros m Hm. by replace m with (length pre) by lia.
        -- intros m Hm Heq. rewrite Hw in Heq.
           by destruct (Hbelow m w Hm Heq).
  - apply StronglySorted_app. split; [| split; [done | by repeat constructor]].
    intros x y Hx Hy. apply list_elem_of_singleton in Hy as ->.
    apply Helem, list_elem_of_lookup in Hx as [m Hm].
    apply (Hbelow m x); [by eapply lookup_lt_Some |].
    rewrite Hws. by apply lookup_app_l_Some.
  - intros x. rewrite !elem_of_app, Helem. done.
Qed.

Lemma loop_inv_same pre rest w uw idx k :
  ws = pre ++ w :: rest → loop_inv ws pre w uw idx →
  idx !! pred (length pre) = Some (Z.of_nat k) → run_start ws (pred (length pre)) k →
  pre ≠ [] →
  loop_inv ws (pre ++ [w]) w uw (idx ++ [Z.of_nat k]).
Proof.
  intros Hws [Hlen Hprev Hstarts Hsorted Helem] Hk (Hkj & Hrun & Hbefore) Hpre.
  assert (ws !! length pre = Some w) as Hw
    by (rewrite Hws, lookup_app_r, Nat.sub_diag by lia; done).
  assert (0 < length pre)%nat as Hpos by (destruct pre; simpl; [done | lia]).
  assert (last pre = Some w) as Hlast.
  { destruct (last pre) eqn:E; [by simpl in Hprev; subst |].
    by apply last_None in E. }
  assert (ws !! pred (length pre) = Some w) as Hp.
  { rewrite last_lookup in Hlast. rewrite Hws. by apply lookup_app_l_Some. }
  split.
  - rewrite !length_app, Hlen. done.
  - by rewrite last_snoc.
  - intros j x Hj. apply lookup_snoc_Some in Hj as [[Hj Hx] | Hj].
    + destruct (Hstarts j x Hx) as (k' & Hk' & Hrun').
      exists k'. split; [by apply lookup_app_l_Some | done].
    + destruct Hj as [Hj Hx]. subst j x. exists k. split.
      * rewrite lookup_app_r, Hlen, Nat.sub_diag by lia. done.
      * split; [lia |]. split.
        -- intros m Hm. rewrite Hw.
           destruct (decide (m = length pre)) as [-> | Hm']; [done |].
           rewrite <- Hp. apply Hrun. lia.
        -- intros m Hm. rewrite Hw, <- Hp. by apply Hbefore.
  - done.
  - intros x. rewrite elem_of_app, list_elem_of_singleton, Helem.
    split; [by left |]. intros [? | ->]; [done |].
    rewrite last_lookup in Hlast. by eapply list_elem_of_lookup_2.
Qed.

Lemma NewDocument_loop_inv rest :
  ∀ pre prev uw idx,
    ws = pre ++ rest → loop_inv ws pre prev uw idx →
    ∃ prev' uw' idx',
      NewDocument_loop rest (len pre) prev uw idx = Ret (uw', idx') ∧
      loop_inv ws ws prev' uw' idx'.
Proof.
  induction rest as [|w rest IH]; intros pre prev uw idx Hws Hinv.
  - rewrite app_nil_r in Hws. subst pre. simpl. eauto.
  - assert (len pre + 1 ≤ int_max) as Hbound.
    { rewrite Hws, len_app in ws_len. unfold len in *. simpl in ws_len. lia. }
    assert (int_add (len pre) 1 = len (pre ++ [w])) as Hnext.
    { unfold int_add. rewrite wrap_id, len_app; [done |].
      pose proof (len_nonneg pre). unfold int_min. lia. }
    assert (w ≠ EmptyString) as Hw.
    { rewrite Forall_forall in ws_nonempty. apply ws_nonempty.
      rewrite Hws. apply elem_of_app. right. by left. }
    simpl. destruct (String.eqb_spec w prev) as [-> | Hne]; simpl.
    + assert (pre ≠ []) as Hpre.
      { intros ->. destruct Hinv as [_ Hprev _ _ _]. simpl in Hprev. done. }
      assert (0 < length pre)%nat as Hpos by (destruct pre; simpl; [done | lia]).
      destruct (lookup_lt_is_Some_2 pre (pred (length pre))) as [x Hx]; [lia |].
      destruct (inv_starts _ _ _ _ _ Hinv _ _ Hx) as (k & Hk & Hrun).
      assert (int_sub (len idx) 1 = Z.of_nat (pred (length pre))) as ->.
      { unfold int_sub, len. rewrite (inv_len _ _ _ _ _ Hinv).
        rewrite wrap_id; [lia |]. unfold int_min, len in *. lia. }
      rewrite (index_nat _ _ _ Hk). simpl. rewrite Hnext.
      apply IH; [by rewrite <- app_assoc |].
      by eapply loop_inv_same.
    + rewrite Hnext. apply IH; [by rewrite <- app_assoc |].
      by eapply loop_inv_new.
Qed.

Lemma NewDocument_loop_spec :
  ∃ prev uw idx,
    NewDocument_loop ws 0 EmptyString [] [] = Ret (uw, idx) ∧
    loop_inv ws ws prev uw idx.
Proof.
  destruct (NewDocument_loop_inv ws [] EmptyString [] [] eq_refl loop_inv_init)
    as (prev & uw & idx & H). eauto.
Qed.
End loop.

(** ** Construction *)

Lemma StronglySorted_lt_NoDup uw : StronglySorted string_lt uw → NoDup uw.
Proof.
  induction 1 as [|x uw Hs IH Hall]; constructor; [| done].
  intros Hx. rewrite Forall_forall in Hall. by destruct (Hall x Hx).
Qed.

Lemma loop_inv_length ws prev uw idx :
  loop_inv ws ws prev uw idx → (length uw ≤ length ws)%nat.
Proof.
  intros [_ _ _ Hsorted Helem].
  apply submseteq_length, NoDup_submseteq.
  - by apply StronglySorted_lt_NoDup.
  - intros x. by rewrite Helem.
Qed.

Lemma loop_inv_some ws prev uw idx :
  loop_inv ws ws prev uw idx → (0 < length ws)%nat → (0 < length uw)%nat.
Proof.
  intros [_ _ _ _ Helem] Hws. destruct ws as [|w ws]; simpl in Hws; [lia |].
  assert (w ∈ uw) as Hw by (apply Helem; by left).
  destruct uw; [inversion Hw | simpl; lia].
Qed.

Lemma run_start_unique ws j k k' : run_start ws j k → run_start ws j k' → k = k'.
Proof.
  intros (H1 & H2 & H3) (H1' & H2' & H3').
  destruct (Nat.lt_trichotomy k k') as [Hlt | [-> | Hlt]]; [| done |].
  - exfalso. apply (H3' k Hlt), H2. lia.
  - exfalso. apply (H3 k' Hlt), H2'. lia.
Qed.

(** The three ways [NewDocument] ends; it does not panic. *)
Lemma NewDocument_cases text K :
  string_len text ≤ int_max →
  (K ≤ 1 ∧ NewDocument text K = Err ErrNumTopics) ∨
  (1 < K ∧ len (tokens text) ≤ 1 ∧ NewDocument text K = Err (ErrTooFewWords text)) ∨
  (1 < K ∧ 1 < len (tokens text) ∧
   ∃ prev uw idx,
     let ws := sort_Strings (tokens text) in
     loop_inv ws ws prev uw idx ∧
     NewDocument text K =
     Ret (mkDocument uw idx (replicate (length ws) 0)
            (<[0%nat := len ws]> (replicate (Z.to_nat K) 0)))).
Proof.
  intros Htext. unfold NewDocument. fold (tokens text).
  destruct (Z.leb_spec K 1) as [HK | HK]; [by left |]. right.
  destruct (Z.leb_spec (len (tokens text)) 1) as [HN | HN]; [by left |]. right.
  split; [done |]. split; [done |].
  set (ws := sort_Strings (tokens text)).
  assert (len ws = len (tokens text)) as Hlen
    by (unfold len, ws; by rewrite sort_Strings_length).
  destruct (NewDocument_loop_spec ws) as (prev & uw & idx & Hloop & Hinv).
  { apply sort_Strings_sorted. }
  { unfold ws. rewrite sort_Strings_perm. apply tokens_nonempty. }
  { pose proof (tokens_length text). lia. }
  exists prev, uw, idx. split; [done |].
  rewrite store_in_range by (unfold len; rewrite length_replicate; lia).
  simpl. rewrite Hloop. simpl. change (Z.to_nat 0) with 0%nat.
  pose proof (loop_inv_some _ _ _ _ Hinv). pose proof (inv_len _ _ _ _ _ Hinv).
  assert (IsValid
            (mkDocument uw idx (replicate (length ws) 0)
               (<[0%nat := len ws]> (replicate (Z.to_nat K) 0))) = true) as ->.
  { unfold IsValid, len in *. simpl.
    rewrite length_insert, !length_replicate.
    rewrite !andb_true_iff, !Z.leb_le, Z.eqb_eq. lia. }
  done.
Qed.

Lemma NewDocument_Ret text K d :
  string_len text ≤ int_max → NewDocument text K = Ret d →
  1 < K ∧ 1 < len (tokens text) ∧
  ∃ prev,
    let ws := sort_Strings (tokens text) in
    loop_inv ws ws prev (unique_words d) (wordtopics_indices d) ∧
    wordtopics d = replicate (length ws) 0 ∧
    topic_histogram d = <[0%nat := len ws]> (replicate (Z.to_nat K) 0).
Proof.
  intros Htext Hd.
  destruct (NewDocument_cases text K Htext)
    as [[_ H] | [(_ & _ & H) | (HK & HN & prev & uw & idx & Hinv & H)]];
    rewrite H in Hd; try done.
  injection Hd as <-. simpl. eauto 10.
Qed.

Lemma built_wf text K d :
  string_len text ≤ int_max → NewDocument text K = Ret d → wf d.
Proof.
  intros Htext Hd.
  destruct (NewDocument_Ret text K d Htext Hd) as (HK & HN & prev & Hinv & Hl & Hh).
  set (ws := sort_Strings (tokens text)) in *.
  assert (len ws = len (tokens text)) as Hlen
    by (unfold len, ws; by rewrite sort_Strings_length).
  pose proof (tokens_length text) as Htok.
  pose proof (loop_inv_length _ _ _ _ Hinv) as HU.
  pose proof (loop_inv_some _ _ _ _ Hinv) as HU1.
  pose proof (inv_len _ _ _ _ _ Hinv) as Hidx.
  assert (len (wordtopics d) = len ws) as HlenN
    by (unfold len; by rewrite Hl, length_replicate).
  assert (len (topic_histogram d) = K) as HlenK
    by (unfold len; rewrite Hh, length_insert, length_replicate; lia).
  split.
  - unfold len in *. lia.
  - unfold len in *. lia.
  - lia.
  - lia.
  - intros j x Hj.
    destruct (lookup_lt_is_Some_2 ws j) as [w Hw].
    { rewrite <- Hidx. by eapply lookup_lt_Some. }
    destruct (inv_starts _ _ _ _ _ Hinv j w Hw) as (k & Hk & Hle & _).
    rewrite Hk in Hj. injection Hj as <-. lia.
  - rewrite Hl. apply Forall_replicate. lia.
  - intros t Ht. rewrite Hl, count_replicate_0, Hh.
    rewrite Hh, length_insert, length_replicate in Ht.
    destruct t as [|t].
    + rewrite list_lookup_insert_eq by (rewrite length_replicate; lia).
      rewrite bool_decide_true by done. done.
    + rewrite list_lookup_insert_ne by done.
      rewrite lookup_replicate_2 by lia.
      rewrite bool_decide_false by lia. done.
  - rewrite Hh, HlenN.
    rewrite (sumZ_insert _ _ 0) by (apply lookup_replicate_2; lia).
    rewrite sumZ_replicate_0. lia.
Qed.

(** ** The iterator *)

Lemma NewWordIterator_Ret d iter :
  NewWordIterator (Some d) = Ret iter →
  IsValid d = true ∧ iter = mkWordIterator d 0 0.
Proof.
  unfold NewWordIterator. destruct (IsValid d); simpl; [| done].
  intros [= <-]. done.
Qed.

Lemma wf_IsValid d : wf d → IsValid d = true.
Proof.
  intros Hwf. unfold IsValid.
  rewrite !andb_true_iff, !Z.leb_le, Z.eqb_eq.
  destruct Hwf. lia.
Qed.

Lemma NewWordIterator_inv d iter :
  wf d → NewWordIterator (Some d) = Ret iter → iter_inv d iter.
Proof.
  intros Hwf Hiter. apply NewWordIterator_Ret in Hiter as [_ ->].
  split; simpl; try done. destruct Hwf. lia.
Qed.

Lemma Done_inv d0 iter :
  iter_inv d0 iter →
  Done iter = Ret (unique_word_index iter =? len (unique_words (doc iter))).
Proof.
  intros Hinv. unfold Done.
  destruct (Z.ltb_spec (len (unique_words (doc iter))) (unique_word_index iter));
    [| done].
  destruct Hinv. lia.
Qed.

Lemma Done_false d0 iter :
  iter_inv d0 iter →
  unique_word_index iter < len (unique_words (doc iter)) →
  Done iter = Ret false.
Proof.
  intros Hinv Hlt. rewrite (Done_inv d0) by done.
  destruct (Z.eqb_spec (unique_word_index iter) (len (unique_words (doc iter))));
    [lia | done].
Qed.

Lemma Done_true d0 iter :
  iter_inv d0 iter →
  unique_word_index iter = len (unique_words (doc iter)) →
  Done iter = Ret true.
Proof.
  intros Hinv Heq. rewrite (Done_inv d0) by done.
  by rewrite Heq, Z.eqb_refl.
Qed.

(** An operation that returns was called before the end. *)
Lemma not_done d0 iter :
  iter_inv d0 iter → Done iter = Ret false →
  unique_word_index iter < len (unique_words (doc iter)).
Proof.
  intros Hinv HD. rewrite (Done_inv d0) in HD by done.
  injection HD as HD. apply Z.eqb_neq in HD. destruct Hinv. lia.
Qed.

(** [Next] moves both indices: the entry of [wordtopics_indices] it
    compares with is at most its index. *)
Lemma Next_spec d0 iter :
  iter_inv d0 iter →
  unique_word_index iter < len (unique_words (doc iter)) →
  Next iter =
  Ret (mkWordIterator (doc iter) (unique_word_index iter + 1)
         (word_topic_index iter + 1)).
Proof.
  intros Hinv Hlt. unfold Next. rewrite (Done_false d0) by done. simpl.
  destruct Hinv as [_ _ _ _ Hwf Hpos Hrange]. destruct Hwf.
  unfold int_add. rewrite <- Hpos.
  rewrite wrap_id by (unfold int_min; lia).
  destruct (Z.leb_spec (len (wordtopics (doc iter))) (unique_word_index iter + 1));
    [done |].
  destruct (lookup_lt_is_Some_2 (wordtopics_indices (doc iter))
              (Z.to_nat (unique_word_index iter + 1))) as [x Hx].
  { unfold len in *. lia. }
  assert (index (wordtopics_indices (doc iter)) (unique_word_index iter + 1) = Ret x)
    as -> by (apply index_Ret; split; [lia | done]).
  simpl. apply wf_idx0 in Hx.
  destruct (Z.leb_spec x (unique_word_index iter + 1)); [done | lia].
Qed.

Lemma Next_Ret d0 iter iter' :
  iter_inv d0 iter → Next iter = Ret iter' →
  unique_word_index iter < len (unique_words (doc iter)) ∧
  iter' = mkWordIterator (doc iter) (unique_word_index iter + 1)
            (word_topic_index iter + 1).
Proof.
  intros Hinv HN.
  assert (Done iter = Ret false) as HD.
  { unfold Next in HN. rewrite (Done_inv d0) in * by done. simpl in HN.
    by destruct (unique_word_index iter =? len (unique_words (doc iter))). }
  apply (not_done d0) in HD; [| done].
  rewrite (Next_spec d0) in HN by done. by injection HN as <-.
Qed.

Lemma Next_inv d0 iter iter' :
  iter_inv d0 iter → Next iter = Ret iter' → iter_inv d0 iter'.
Proof.
  intros Hinv HN. destruct (Next_Ret d0 iter iter' Hinv HN) as [Hlt ->].
  destruct Hinv. split; simpl; try done; lia.
Qed.

Lemma Topic_spec d0 iter :
  iter_inv d0 iter →
  unique_word_index iter < len (unique_words (doc iter)) →
  ∃ old,
    wordtopics (doc iter) !! Z.to_nat (word_topic_index iter) = Some old ∧
    0 ≤ old < len (topic_histogram (doc iter)) ∧
    Topic iter = Ret old.
Proof.
  intros Hinv Hlt. unfold Topic. rewrite (Done_false d0) by done. simpl.
  destruct Hinv as [_ _ _ _ Hwf Hpos Hrange]. destruct Hwf.
  destruct (lookup_lt_is_Some_2 (wordtopics (doc iter))
              (Z.to_nat (word_topic_index iter))) as [old Hold].
  { unfold len in *. lia. }
  exists old. split; [done |]. split.
  - apply (Forall_lookup_1 _ _ _ _ wf_labels0 Hold).
  - apply index_Ret. split; [lia | done].
Qed.

Lemma Word_spec d0 iter :
  iter_inv d0 iter →
  unique_word_index iter < len (unique_words (doc iter)) →
  ∃ w,
    unique_words (doc iter) !! Z.to_nat (unique_word_index iter) = Some w ∧
    Word iter = Ret w.
Proof.
  intros Hinv Hlt. unfold Word. rewrite (Done_false d0) by done. simpl.
  destruct Hinv as [_ _ _ _ _ _ Hrange].
  destruct (lookup_lt_is_Some_2 (unique_words (doc iter))
              (Z.to_nat (unique_word_index iter))) as [w Hw].
  { unfold len in *. lia. }
  exists w. split; [done |]. apply index_Ret. split; [lia | done].
Qed.

Lemma move_count_length hist old new :
  length (move_count hist old new) = length hist.
Proof. unfold move_count. by rewrite !length_insert. Qed.

Lemma move_count_other hist old new (u : nat) :
  u ≠ Z.to_nat old → u ≠ Z.to_nat new → move_count hist old new !! u = hist !! u.
Proof.
  intros Ho Hn. unfold move_count.
  by rewrite !list_lookup_insert_ne by done.
Qed.

Lemma move_count_same hist t : move_count hist t t = hist.
Proof.
  unfold move_count. rewrite list_insert_insert_eq.
  destruct (hist !! Z.to_nat t) as [h|] eqn:Ht.
  - rewrite list_lookup_insert_eq by (by eapply lookup_lt_Some). simpl.
    apply list_insert_id. rewrite Ht. f_equal. lia.
  - apply list_insert_ge. by apply lookup_ge_None.
Qed.

Lemma move_count_sum hist old new :
  0 ≤ old < len hist → 0 ≤ new < len hist →
  sumZ (move_count hist old new) = sumZ hist.
Proof.
  intros Ho Hn. unfold move_count.
  destruct (lookup_lt_is_Some_2 hist (Z.to_nat old)) as [a Ha];
    [unfold len in *; lia |].
  set (hist1 := <[Z.to_nat old := default 0 (hist !! Z.to_nat old) - 1]> hist).
  destruct (lookup_lt_is_Some_2 hist1 (Z.to_nat new)) as [b Hb].
  { unfold hist1. rewrite length_insert. unfold len in *. lia. }
  rewrite (sumZ_insert _ _ b), Hb by done.
  unfold hist1. rewrite (sumZ_insert _ _ a), Ha by done.
  simpl. lia.
Qed.

(** The histogram follows the labels through a relabelling. *)
Lemma move_count_count hist labels (p : nat) old new :
  (∀ t : nat, (t < length hist)%nat →
     hist !! t = Some (count (Z.of_nat t) labels)) →
  labels !! p = Some old → 0 ≤ old < len hist → 0 ≤ new < len hist →
  ∀ t : nat, (t < length hist)%nat →
    move_count hist old new !! t = Some (count (Z.of_nat t) (<[p := new]> labels)).
Proof.
  intros Hhist Hp Ho Hn t Ht.
  rewrite (count_insert _ _ _ old) by done.
  unfold move_count.
  rewrite (Hhist (Z.to_nat old)) by (unfold len in *; lia). simpl.
  rewrite Z2Nat.id by lia.
  destruct (decide (t = Z.to_nat new)) as [-> | Hnew].
  - rewrite list_lookup_insert_eq by (rewrite length_insert; lia).
    rewrite Z2Nat.id by lia. rewrite (bool_decide_true (new = new)) by done.
    destruct (decide (old = new)) as [-> | Hon].
    + rewrite list_lookup_insert_eq by lia. simpl.
      rewrite bool_decide_true by done. f_equal; lia.
    + rewrite list_lookup_insert_ne by lia.
      rewrite Hhist by lia. simpl. rewrite Z2Nat.id by lia.
      rewrite bool_decide_false by done. f_equal; lia.
  - rewrite list_lookup_insert_ne by done.
    rewrite (bool_decide_false (new = Z.of_nat t)) by lia.
    destruct (decide (t = Z.to_nat old)) as [-> | Hold].
    + rewrite list_lookup_insert_eq by lia. rewrite Z2Nat.id by lia.
      rewrite bool_decide_true by done. f_equal; lia.
    + rewrite list_lookup_insert_ne by done. rewrite Hhist by done.
      rewrite bool_decide_false by lia. f_equal; lia.
Qed.

(** [SetTopic] before the end, with a topic of the histogram, returns:
    neither its indexing nor its arithmetic goes wrong. *)
Lemma SetTopic_spec d0 iter t :
  iter_inv d0 iter →
  unique_word_index iter < len (unique_words (doc iter)) →
  0 ≤ t < len (topic_histogram (doc iter)) →
  ∃ old,
    Topic iter = Ret old ∧
    wordtopics (doc iter) !! Z.to_nat (word_topic_index iter) = Some old ∧
    0 ≤ old < len (topic_histogram (doc iter)) ∧
    SetTopic t iter =
    Ret (mkWordIterator
           (mkDocument (unique_words (doc iter)) (wordtopics_indices (doc iter))
              (<[Z.to_nat (word_topic_index iter) := t]> (wordtopics (doc iter)))
              (move_count (topic_histogram (doc iter)) old t))
           (unique_word_index iter) (word_topic_index iter)).
Proof.
  intros Hinv Hlt Ht.
  destruct (Topic_spec d0 iter Hinv Hlt) as (old & Hold & Horange & HT).
  exists old. split; [done |]. split; [done |]. split; [done |].
  unfold SetTopic. rewrite (Done_false d0) by done. simpl.
  destruct (Z.ltb_spec t 0); [lia |].
  destruct (Z.leb_spec (len (topic_histogram (doc iter))) t); [lia |].
  rewrite HT. simpl.
  destruct Hinv as [_ _ _ _ Hwf Hpos Hrange]. destruct Hwf.
  set (hist := topic_histogram (doc iter)) in *.
  set (labels := wordtopics (doc iter)) in *.
  set (p := Z.to_nat (word_topic_index iter)) in *.
  pose proof (count_lookup _ _ _ Hold) as Hc1.
  pose proof (count_bounds old labels) as Hc2.
  assert (hist !! Z.to_nat old = Some (count old labels)) as Hho.
  { rewrite wf_hist0 by (unfold len in *; lia). by rewrite Z2Nat.id by lia. }
  rewrite (proj2 (index_Ret hist old (count old labels))) by done. simpl.
  unfold int_sub. rewrite wrap_id by (unfold int_min; lia).
  rewrite (store_in_range hist old) by done. simpl.
  set (hist1 := <[Z.to_nat old := count old labels - 1]> hist).
  assert (len hist1 = len hist) as Hlen1
    by (unfold len, hist1; by rewrite length_insert).
  assert (∃ n_new, hist1 !! Z.to_nat t = Some n_new ∧ 0 ≤ n_new < int_max)
    as (n_new & Hnew & Hbound).
  { destruct (decide (old = t)) as [-> | Hne].
    - exists (count t labels - 1). split; [| lia].
      apply list_lookup_insert_eq. unfold len in *. lia.
    - exists (count t labels). split.
      + unfold hist1. rewrite list_lookup_insert_ne by lia.
        rewrite wf_hist0 by (unfold len in *; lia). by rewrite Z2Nat.id by lia.
      + pose proof (count_insert t labels p old t Hold) as Hins.
        rewrite bool_decide_false, bool_decide_true in Hins by done.
        pose proof (count_bounds t (<[p := t]> labels)) as Hb.
        pose proof (count_bounds t labels).
        unfold len in Hb. rewrite length_insert in Hb. unfold len in *. lia. }
  rewrite (proj2 (index_Ret hist1 t n_new)) by (split; [lia | done]). simpl.
  unfold int_add. rewrite wrap_id by (unfold int_min; lia).
  rewrite (store_in_range hist1 t) by lia. simpl.
  rewrite (store_in_range labels) by (unfold len in *; lia). simpl.
  unfold move_count. rewrite Hho. simpl. fold hist1. rewrite Hnew. done.
Qed.

Lemma SetTopic_Ret d0 iter t iter' :
  iter_inv d0 iter → SetTopic t iter = Ret iter' →
  unique_word_index iter < len (unique_words (doc iter)) ∧
  0 ≤ t < len (topic_histogram (doc iter)).
Proof.
  intros Hinv HS. unfold SetTopic in HS.
  destruct (Done iter) as [[] | |] eqn:HD; simpl in HS; try done.
  apply (not_done d0) in HD; [| done]. split; [done |].
  destruct (Z.ltb_spec t 0); [done |].
  destruct (Z.leb_spec (len (topic_histogram (doc iter))) t); [done | lia].
Qed.

Lemma SetTopic_inv d0 iter t iter' :
  iter_inv d0 iter → SetTopic t iter = Ret iter' → iter_inv d0 iter'.
Proof.
  intros Hinv HS.
  destruct (SetTopic_Ret d0 iter t iter' Hinv HS) as [Hlt Ht].
  destruct (SetTopic_spec d0 iter t Hinv Hlt Ht) as (old & _ & Hold & Ho & Heq).
  rewrite Heq in HS. injection HS as <-.
  destruct Hinv as [Hw Hi HN HK Hwf Hpos Hrange]. destruct Hwf.
  assert (len (move_count (topic_histogram (doc iter)) old t) =
          len (topic_histogram (doc iter))) as HlenK
    by (unfold len; by rewrite move_count_length).
  split; simpl; try done.
  - unfold len in *. rewrite length_insert. done.
  - lia.
  - split; simpl; rewrite ?HlenK; try done.
    + unfold len in *. by rewrite length_insert.
    + unfold len in *. by rewrite length_insert.
    + unfold len in *. by rewrite length_insert.
    + by apply Forall_insert.
    + rewrite move_count_length. by apply move_count_count.
    + rewrite move_count_sum by done. unfold len in *.
      by rewrite length_insert.
Qed.

(** ** Sequences of operations *)

Lemma exec_inv d0 o iter iter' :
  iter_inv d0 iter → exec o iter = Ret iter' → iter_inv d0 iter'.
Proof.
  intros Hinv He. destruct o as [| t | |]; simpl in He.
  - by eapply Next_inv.
  - by eapply SetTopic_inv.
  - destruct (Topic iter); simpl in He; by simplify_eq.
  - destruct (Word iter); simpl in He; by simplify_eq.
Qed.

Lemma run_inv d0 ops :
  ∀ iter iter', iter_inv d0 iter → run ops iter = Ret iter' → iter_inv d0 iter'.
Proof.
  induction ops as [|o ops IH]; intros iter iter' Hinv Hr; simpl in Hr.
  - by simplify_eq.
  - destruct (exec o iter) as [iter1 | |] eqn:He; simpl in Hr; try done.
    eapply IH; [| done]. by eapply exec_inv.
Qed.

Lemma run_app ops1 ops2 iter :
  run (ops1 ++ ops2) iter = (iter' ← run ops1 iter; run ops2 iter').
Proof.
  revert iter. induction ops1 as [|o ops1 IH]; intros iter; simpl; [done |].
  destruct (exec o iter); simpl; [apply IH | done | done].
Qed.

(** The states an iterator over a built document goes through. *)
Lemma reach_inv text K d it0 ops iter :
  string_len text ≤ int_max →
  NewDocument text K = Ret d →
  NewWordIterator (Some d) = Ret it0 →
  run ops it0 = Ret iter →
  iter_inv d iter.
Proof.
  intros Htext Hd Hit Hr.
  eapply run_inv; [| done].
  apply NewWordIterator_inv; [| done]. by eapply built_wf.
Qed.

Lemma built_sizes text K d :
  string_len text ≤ int_max → NewDocument text K = Ret d →
  len (topic_histogram d) = K ∧
  wordtopics d = replicate (Z.to_nat (Length d)) 0 ∧
  index (topic_histogram d) 0 = Ret (Length d).
Proof.
  intros Htext Hd.
  destruct (NewDocument_Ret text K d Htext Hd) as (HK & HN & prev & _ & Hl & Hh).
  assert (Length d = len (sort_Strings (tokens text))) as HL
    by (unfold Length, len; by rewrite Hl, length_replicate).
  split; [| split].
  - unfold len. rewrite Hh, length_insert, length_replicate. lia.
  - rewrite HL. unfold len. by rewrite Nat2Z.id.
  - apply index_Ret. rewrite HL, Hh. split.
    + unfold len. rewrite length_insert, length_replicate. lia.
    + apply list_lookup_insert_eq. rewrite length_replicate. lia.
Qed.

Lemma frame_exec d0 o iter iter' :
  iter_inv d0 iter → exec o iter = Ret iter' → frame o iter iter'.
Proof.
  intros Hinv He. destruct o as [| t | |]; simpl in He.
  - destruct (Next_Ret d0 iter iter' Hinv He) as [_ ->]. by repeat split.
  - destruct (SetTopic_Ret d0 iter t iter' Hinv He) as [Hlt Ht].
    destruct (SetTopic_spec d0 iter t Hinv Hlt Ht) as (old & HT & _ & _ & Heq).
    rewrite Heq in He. injection He as <-. unfold frame, Length, len. simpl.
    rewrite length_insert, move_count_length.
    repeat split; try done.
    exists old. split; [done |]. split.
    + intros i Hi. by rewrite list_lookup_insert_ne.
    + intros u Ho Hn. by apply move_count_other.
  - destruct (Topic iter); simpl in He; simplify_eq. by repeat split.
  - destruct (Word iter); simpl in He; simplify_eq. by repeat split.
Qed.

(** ** The claims *)

(** C3: after construction all labels are 0 and the first entry of the
    histogram is N; after any sequence of operations of an iterator that
    the code accepts (advances, reads and set_topic calls), the histogram
    has K entries, entry t is the number of labels equal to t for every
    t in [0,K), and the entries sum to N.  Before the end of the walk
    set_topic accepts every topic of [0,K). *)
Theorem C3_histogram_counts_labels text K d it0 ops iter :
  string_len text ≤ int_max →
  NewDocument text K = Ret d →
  NewWordIterator (Some d) = Ret it0 →
  run ops it0 = Ret iter →
  wordtopics d = replicate (Z.to_nat (Length d)) 0 ∧
  index (topic_histogram d) 0 = Ret (Length d) ∧
  Length (doc iter) = Length d ∧
  histogram_consistent (doc iter) K (Length d) ∧
  (∀ t, 0 ≤ t < K → Done iter = Ret false →
        ∃ iter', SetTopic t iter = Ret iter').
Proof.
  intros Htext Hd Hit Hr.
  destruct (built_sizes text K d Htext Hd) as (HK & Hl & Hh).
  pose proof (reach_inv text K d it0 ops iter Htext Hd Hit Hr) as Hinv.
  pose proof (ii_N _ _ Hinv) as HN. pose proof (ii_K _ _ Hinv) as HK'.
  pose proof (ii_wf _ _ Hinv) as Hwf.
  split; [done |]. split; [done |]. split; [done |]. split.
  - destruct Hwf. split; [lia |]. split; [| unfold Length; lia].
    intros t Ht. apply index_Ret. split; [lia |].
    rewrite wf_hist0 by (unfold len in *; lia). by rewrite Z2Nat.id by lia.
  - intros t Ht HD. apply (not_done d) in HD; [| done].
    destruct (SetTopic_spec d iter t Hinv HD) as (old & _ & _ & _ & Heq);
      [lia | eauto].
Qed.

Lemma C3_witness :
  wordtopics cat_doc = replicate (Z.to_nat (Length cat_doc)) 0 ∧
  index (topic_histogram cat_doc) 0 = Ret (Length cat_doc) ∧
  Length (doc cat_iter) = Length cat_doc ∧
  histogram_consistent (doc cat_iter) 3 (Length cat_doc) ∧
  (∀ t, 0 ≤ t < 3 → Done cat_iter = Ret false →
        ∃ iter', SetTopic t cat_iter = Ret iter').
Proof.
  apply (C3_histogram_counts_labels cat_text 3 cat_doc
           (mkWordIterator cat_doc 0 0) cat_ops cat_iter); by vm_compute.
Defined.

(** C7: at every position an iterator over a built document reaches,
    set_topic(t) with t the label the occurrence already has returns and
    leaves the histogram as it was. *)
Theorem C7_same_topic_keeps_histogram text K d it0 ops iter t :
  string_len text ≤ int_max →
  NewDocument text K = Ret d →
  NewWordIterator (Some d) = Ret it0 →
  run ops it0 = Ret iter →
  Topic iter = Ret t →
  ∃ iter',
    SetTopic t iter = Ret iter' ∧
    topic_histogram (doc iter') = topic_histogram (doc iter).
Proof.
  intros Htext Hd Hit Hr HT.
  pose proof (reach_inv text K d it0 ops iter Htext Hd Hit Hr) as Hinv.
  assert (unique_word_index iter < len (unique_words (doc iter))) as Hlt.
  { apply (not_done d); [done |]. unfold Topic in HT.
    destruct (Done iter) as [[] | |]; simpl in HT; done. }
  destruct (Topic_spec d iter Hinv Hlt) as (old & _ & Hrange & HT').
  rewrite HT in HT'. injection HT' as <-.
  destruct (SetTopic_spec d iter t Hinv Hlt Hrange) as (old & HT' & _ & _ & Heq).
  rewrite HT in HT'. injection HT' as <-.
  eexists. split; [done |]. simpl. apply move_count_same.
Qed.

Lemma C7_witness :
  ∃ iter',
    SetTopic 2 cat_iter = Ret iter' ∧
    topic_histogram (doc iter') = topic_histogram (doc cat_iter).
Proof.
  apply (C7_same_topic_keeps_histogram cat_text 3 cat_doc
           (mkWordIterator cat_doc 0 0) cat_ops cat_iter 2); by vm_compute.
Defined.

(** C9: an operation of an iterator over a built document (advance,
    current_word, current_topic, set_topic) leaves the distinct words, the
    offsets, N and K as construction made them; the reads and advance leave
    the whole document alone, and set_topic changes at most the label at
    the current position and the histogram entries of the old and the new
    topic. *)
Theorem C9_operations_frame text K d it0 ops iter o iter' :
  string_len text ≤ int_max →
  NewDocument text K = Ret d →
  NewWordIterator (Some d) = Ret it0 →
  run ops it0 = Ret iter →
  exec o iter = Ret iter' →
  frame o iter iter' ∧
  unique_words (doc iter') = unique_words d ∧
  wordtopics_indices (doc iter') = wordtopics_indices d ∧
  Length (doc iter') = Length d ∧
  len (topic_histogram (doc iter')) = K.
Proof.
  intros Htext Hd Hit Hr He.
  pose proof (reach_inv text K d it0 ops iter Htext Hd Hit Hr) as Hinv.
  split; [by eapply frame_exec |].
  destruct (built_sizes text K d Htext Hd) as (HK & _).
  destruct (exec_inv d o iter iter' Hinv He) as [Hw Hi HN HK' _ _ _].
  unfold Length. repeat split; try done. lia.
Qed.

Lemma C9_witness :
  frame (OpSetTopic 0) cat_iter cat_iter_reset ∧
  unique_words (doc cat_iter_reset) = unique_words cat_doc ∧
  wordtopics_indices (doc cat_iter_reset) = wordtopics_indices cat_doc ∧
  Length (doc cat_iter_reset) = Length cat_doc ∧
  len (topic_histogram (doc cat_iter_reset)) = 3.
Proof.
  apply (C9_operations_frame cat_text 3 cat_doc
           (mkWordIterator cat_doc 0 0) cat_ops cat_iter (OpSetTopic 0));
    by vm_compute.
Defined.

(** ** How far an iterator goes *)

Lemma advance_spec d0 n :
  ∀ iter,
    iter_inv d0 iter →
    unique_word_index iter + Z.of_nat n ≤ len (unique_words (doc iter)) →
    advance n iter =
    Ret (mkWordIterator (doc iter) (unique_word_index iter + Z.of_nat n)
           (word_topic_index iter + Z.of_nat n)).
Proof.
  induction n as [|n IH]; intros iter Hinv Hle.
  - simpl. rewrite !Z.add_0_r. by destruct iter.
  - simpl. rewrite (Next_spec d0) by (done || lia). simpl.
    rewrite IH; simpl.
    + do 2 f_equal; lia.
    + apply (Next_inv d0 iter); [done |]. apply (Next_spec d0); [done | lia].
    + lia.
Qed.

(** An iterator over a built document with U distinct words is done
    after U calls of [Next], at position U, and not before. *)
Lemma walk_length text K d it0 :
  string_len text ≤ int_max →
  NewDocument text K = Ret d →
  NewWordIterator (Some d) = Ret it0 →
  (∀ n : nat, Z.of_nat n < len (unique_words d) →
     ∃ iter, advance n it0 = Ret iter ∧ Done iter = Ret false ∧
             word_topic_index iter = Z.of_nat n) ∧
  (∃ iter, advance (length (unique_words d)) it0 = Ret iter ∧
           Done iter = Ret true ∧
           word_topic_index iter = len (unique_words d)).
Proof.
  intros Htext Hd Hit.
  pose proof (built_wf text K d Htext Hd) as Hwf.
  pose proof (NewWordIterator_inv d it0 Hwf Hit) as Hinv.
  apply NewWordIterator_Ret in Hit as [_ ->].
  assert (∀ n : nat, Z.of_nat n ≤ len (unique_words d) →
            advance n (mkWordIterator d 0 0) =
            Ret (mkWordIterator d (Z.of_nat n) (Z.of_nat n)) ∧
            iter_inv d (mkWordIterator d (Z.of_nat n) (Z.of_nat n))) as Hadv.
  { intros n Hn. rewrite (advance_spec d n) by (done || (simpl; lia)). simpl.
    split; [done |].
    destruct Hinv. split; simpl in *; try done. lia. }
  split.
  - intros n Hn. destruct (Hadv n) as [-> Hinv']; [lia |].
    eexists. split; [done |]. split; [| done].
    apply (Done_false d); [done | simpl; lia].
  - destruct (Hadv (length (unique_words d))) as [-> Hinv']; [unfold len; lia |].
    eexists. split; [done |]. split; [| done].
    apply (Done_true d); [done | done].
Qed.

(** The words a walk reports are the distinct words, once each. *)
Lemma walk_words text K d it0 (n : nat) iter :
  string_len text ≤ int_max →
  NewDocument text K = Ret d →
  NewWordIterator (Some d) = Ret it0 →
  Z.of_nat n < len (unique_words d) →
  advance n it0 = Ret iter →
  ∃ w, unique_words d !! n = Some w ∧ Word iter = Ret w.
Proof.
  intros Htext Hd Hit Hn Hadv.
  pose proof (built_wf text K d Htext Hd) as Hwf.
  pose proof (NewWordIterator_inv d it0 Hwf Hit) as Hinv.
  apply NewWordIterator_Ret in Hit as [_ ->].
  rewrite (advance_spec d n) in Hadv by (done || (simpl; lia)).
  simpl in Hadv. injection Hadv as <-.
  assert (iter_inv d (mkWordIterator d (Z.of_nat n) (Z.of_nat n))) as Hinv'.
  { destruct Hinv. split; simpl in *; try done. lia. }
  destruct (Word_spec d _ Hinv') as (w & Hw & HW); [simpl; lia |].
  simpl in Hw. rewrite Nat2Z.id in Hw. eauto.
Qed.

(** C1: on the text [a a] (N = 2, one distinct word) the iterator is done
    after the first advance, at position 1: the occurrence at position 1
    is not visited ([walk_length] has the general statement). *)
Theorem C1_done_after_first_advance :
  (it ← open "a a" 2;
   it' ← Next it;
   finished ← Done it';
   Ret (Length (doc it'), word_topic_index it', finished)) = Ret (2, 1, true).
Proof. vm_compute. reflexivity. Qed.

(** C4: on the text [a a b] the occurrences are [a; a; b]; after one
    advance the iterator is at position 1, an occurrence of [a], and
    reports the word [b]. *)
Theorem C4_word_not_the_owner :
  sort_Strings (tokens "a a b") = ["a"; "a"; "b"] ∧
  (it ← open "a a b" 2;
   it' ← Next it;
   w ← Word it';
   Ret (wordtopics_indices (doc it'), word_topic_index it', w)) =
  Ret ([0; 0; 2], 1, "b").
Proof. split; vm_compute; reflexivity. Qed.

(** ** The offsets of a built document *)

Lemma run_start_mono ws j j' k k' :
  (j ≤ j')%nat → run_start ws j k → run_start ws j' k' → (k ≤ k')%nat.
Proof.
  intros Hj (Hk & Hrun & Hbefore) (Hk' & Hrun' & Hbefore').
  destruct (Nat.le_gt_cases k k') as [| Hlt]; [done |]. exfalso.
  apply (Hbefore k' Hlt).
  rewrite (Hrun' k') by lia. symmetry. apply Hrun'. lia.
Qed.

Lemma run_start_repeat ws j k k' :
  ws !! S j = ws !! j → run_start ws j k → run_start ws (S j) k' → k' = k.
Proof.
  intros Heq Hrun (Hk' & Hrun' & Hbefore').
  assert (k' ≤ j)%nat.
  { destruct (decide (k' = S j)) as [-> | ?]; [| lia].
    exfalso. by apply (Hbefore' j); [lia |]. }
  apply (run_start_unique ws j); [| done].
  split; [done |]. split.
  - intros m Hm. rewrite <- Heq. apply Hrun'. lia.
  - intros m Hm. rewrite <- Heq. by apply Hbefore'.
Qed.

Lemma built_starts text K d :
  string_len text ≤ int_max → NewDocument text K = Ret d →
  Length d = len (tokens text) ∧
  len (wordtopics_indices d) = Length d ∧
  ∀ j : nat, Z.of_nat j < Length d →
    ∃ k, wordtopics_indices d !! j = Some (Z.of_nat k) ∧
         run_start (sort_Strings (tokens text)) j k.
Proof.
  intros Htext Hd.
  destruct (NewDocument_Ret text K d Htext Hd) as (HK & HN & prev & Hinv & Hl & Hh).
  set (ws := sort_Strings (tokens text)) in *.
  assert (Length d = len ws) as HL
    by (unfold Length, len; by rewrite Hl, length_replicate).
  assert (len ws = len (tokens text)) as Hlen
    by (unfold len, ws; by rewrite sort_Strings_length).
  split; [lia |]. split.
  - rewrite HL. unfold len. by rewrite (inv_len _ _ _ _ _ Hinv).
  - intros j Hj.
    destruct (lookup_lt_is_Some_2 ws j) as [w Hw]; [unfold len in *; lia |].
    apply (inv_starts _ _ _ _ _ Hinv j w Hw).
Qed.

Lemma built_nondecreasing text K d (i j : nat) x y :
  string_len text ≤ int_max → NewDocument text K = Ret d →
  (i ≤ j)%nat →
  wordtopics_indices d !! i = Some x → wordtopics_indices d !! j = Some y →
  0 ≤ x ≤ y.
Proof.
  intros Htext Hd Hij Hi Hj.
  destruct (built_starts text K d Htext Hd) as (_ & Hlen & Hstarts).
  destruct (Hstarts i) as (k & Hk & Hrun).
  { apply lookup_lt_Some in Hi. unfold len in *. lia. }
  destruct (Hstarts j) as (k' & Hk' & Hrun').
  { apply lookup_lt_Some in Hj. unfold len in *. lia. }
  rewrite Hk in Hi. rewrite Hk' in Hj. simplify_eq.
  pose proof (run_start_mono _ _ _ _ _ Hij Hrun Hrun'). lia.
Qed.

(** The distinct words of a built document are its tokens, in strictly
    ascending order. *)
Lemma built_unique_words text K d :
  string_len text ≤ int_max → NewDocument text K = Ret d →
  StronglySorted string_lt (unique_words d) ∧
  ∀ w, w ∈ unique_words d ↔ w ∈ tokens text.
Proof.
  intros Htext Hd.
  destruct (NewDocument_Ret text K d Htext Hd) as (_ & _ & prev & Hinv & _).
  destruct Hinv as [_ _ _ Hsorted Helem]. split; [done |].
  intros w. rewrite Helem. by rewrite sort_Strings_perm.
Qed.

(** C10: the offsets of a built document have one entry per occurrence,
    as many as the labels; entry i is the start of the run of equal words
    that holds occurrence i in the sorted tokens; the first entry is 0,
    the entries do not decrease, and an occurrence of the same word as the
    one before it repeats its entry. *)
Theorem C10_offsets_per_occurrence text K d :
  string_len text ≤ int_max →
  NewDocument text K = Ret d →
  len (wordtopics_indices d) = Length d ∧
  len (wordtopics d) = Length d ∧
  Length d = len (tokens text) ∧
  (∀ i : nat, Z.of_nat i < Length d →
     ∃ k, wordtopics_indices d !! i = Some (Z.of_nat k) ∧
          run_start (sort_Strings (tokens text)) i k) ∧
  wordtopics_indices d !! 0%nat = Some 0 ∧
  (∀ (i j : nat) x y, (i ≤ j)%nat →
     wordtopics_indices d !! i = Some x → wordtopics_indices d !! j = Some y →
     x ≤ y) ∧
  (∀ i : nat, Z.of_nat (S i) < Length d →
     sort_Strings (tokens text) !! S i = sort_Strings (tokens text) !! i →
     wordtopics_indices d !! S i = wordtopics_indices d !! i).
Proof.
  intros Htext Hd.
  destruct (built_starts text K d Htext Hd) as (HL & Hlen & Hstarts).
  pose proof (built_wf text K d Htext Hd) as Hwf.
  split; [done |]. split; [done |]. split; [done |]. split; [done |].
  split; [| split].
  - destruct (Hstarts 0%nat) as (k & Hk & Hle & _).
    { destruct Hwf. unfold Length. lia. }
    rewrite Hk. f_equal. lia.
  - intros i j x y Hij Hi Hj.
    by destruct (built_nondecreasing text K d i j x y Htext Hd Hij Hi Hj).
  - intros i Hi Heq.
    destruct (Hstarts i) as (k & Hk & Hrun); [lia |].
    destruct (Hstarts (S i)) as (k' & Hk' & Hrun'); [lia |].
    rewrite Hk, Hk'. do 2 f_equal.
    by apply (run_start_repeat (sort_Strings (tokens text)) i).
Qed.

Lemma C10_witness :
  len (wordtopics_indices cat_doc) = Length cat_doc ∧
  len (wordtopics cat_doc) = Length cat_doc ∧
  Length cat_doc = len (tokens cat_text) ∧
  (∀ i : nat, Z.of_nat i < Length cat_doc →
     ∃ k, wordtopics_indices cat_doc !! i = Some (Z.of_nat k) ∧
          run_start (sort_Strings (tokens cat_text)) i k) ∧
  wordtopics_indices cat_doc !! 0%nat = Some 0 ∧
  (∀ (i j : nat) x y, (i ≤ j)%nat →
     wordtopics_indices cat_doc !! i = Some x →
     wordtopics_indices cat_doc !! j = Some y →
     x ≤ y) ∧
  (∀ i : nat, Z.of_nat (S i) < Length cat_doc →
     sort_Strings (tokens cat_text) !! S i = sort_Strings (tokens cat_text) !! i →
     wordtopics_indices cat_doc !! S i = wordtopics_indices cat_doc !! i).
Proof.
  apply (C10_offsets_per_occurrence cat_text 3 cat_doc); by vm_compute.
Defined.




(** ** When construction fails *)

(** C5: [NewDocument] returns an error, and no document, exactly when
    num_topics is less than 2 or the text has fewer than 2 tokens;
    otherwise it returns a document.  The empty text and the text
    [single] fail for every number of topics, and [a b] fails with one
    topic. *)
Theorem C5_NewDocument_fails_iff text K :
  string_len text ≤ int_max →
  ((∃ e, NewDocument text K = Err e) ↔ K < 2 ∨ len (tokens text) < 2) ∧
  ((∃ d, NewDocument text K = Ret d) ↔ ¬ (K < 2 ∨ len (tokens text) < 2)) ∧
  (∀ K', ∃ e, NewDocument EmptyString K' = Err e) ∧
  (∀ K', ∃ e, NewDocument "single" K' = Err e) ∧
  NewDocument "a b" 1 = Err ErrNumTopics.
Proof.
  intros Htext.
  assert (∀ t K', string_len t ≤ int_max → len (tokens t) < 2 →
                  ∃ e, NewDocument t K' = Err e) as Hfew.
  { intros t K' Ht Hn.
    destruct (NewDocument_cases t K' Ht)
      as [[_ H] | [(_ & _ & H) | (_ & ? & _)]]; [eauto | eauto | lia]. }
  split; [| split; [| split; [| split]]].
  - destruct (NewDocument_cases text K Htext)
      as [[HK H] | [(HK & HN & H) | (HK & HN & prev & uw & idx & _ & H)]];
      rewrite H; split; try (intros; eexists; done); try (intros; lia).
    intros [e He]. done.
  - destruct (NewDocument_cases text K Htext)
      as [[HK H] | [(HK & HN & H) | (HK & HN & prev & uw & idx & _ & H)]];
      rewrite H; split; try (intros; eexists; done); try (intros; lia).
    + intros [d Hd]. done.
    + intros [d Hd]. done.
  - intros K'. apply Hfew; by vm_compute.
  - intros K'. apply Hfew; by vm_compute.
  - by vm_compute.
Qed.

Lemma C5_witness :
  ((∃ e, NewDocument cat_text 3 = Err e) ↔ 3 < 2 ∨ len (tokens cat_text) < 2) ∧
  ((∃ d, NewDocument cat_text 3 = Ret d) ↔
   ¬ (3 < 2 ∨ len (tokens cat_text) < 2)) ∧
  (∀ K', ∃ e, NewDocument EmptyString K' = Err e) ∧
  (∀ K', ∃ e, NewDocument "single" K' = Err e) ∧
  NewDocument "a b" 1 = Err ErrNumTopics.
Proof. apply (C5_NewDocument_fails_iff cat_text 3). by vm_compute. Defined.

(** ** Opening an iterator *)

Lemma IsValid_sizes_ok d : IsValid d = true ↔ sizes_ok d.
Proof.
  unfold IsValid, sizes_ok.
  rewrite !andb_true_iff, !Z.leb_le, Z.eqb_eq. tauto.
Qed.

(** C8, as the code has it: opening an iterator fails on the nil document
    and on a document whose sizes are wrong (no distinct word, offsets and
    labels of different lengths, fewer than 2 occurrences or fewer than 2
    topics), and only on those; an iterator is returned, at position 0,
    exactly on a document with the right sizes. *)
Theorem C8_open_checks_sizes (d : Document) :
  NewWordIterator None = Err ErrNilDocument ∧
  (sizes_ok d ↔ NewWordIterator (Some d) = Ret (mkWordIterator d 0 0)) ∧
  (¬ sizes_ok d ↔ NewWordIterator (Some d) = Err ErrIterInvalidDocument) ∧
  (∀ iter, NewWordIterator (Some d) = Ret iter →
           sizes_ok d ∧ iter = mkWordIterator d 0 0).
Proof.
  split; [done |]. unfold NewWordIterator.
  pose proof (IsValid_sizes_ok d) as Hok.
  destruct (IsValid d); simpl.
  - assert (sizes_ok d) as H by (by apply Hok).
    split; [done |]. split; [split; done |]. intros iter [= <-]. done.
  - assert (¬ sizes_ok d) as H by (intros H; by apply Hok in H).
    split; [split; done |]. split; [split; done |]. done.
Qed.

(** C8 as stated fails: an iterator is returned on a document whose words
    are not sorted, whose offsets decrease and whose histogram does not
    count its labels; and on the document built from the text of the
    example, whose offsets do not end with N. *)
Lemma C8_counterexample :
  NewWordIterator (Some bad_doc) = Ret (mkWordIterator bad_doc 0 0) ∧
  ¬ StronglySorted string_lt (unique_words bad_doc) ∧
  ¬ Sorted Z.le (wordtopics_indices bad_doc) ∧
  index (topic_histogram bad_doc) 0 ≠ Ret (count 0 (wordtopics bad_doc)) ∧
  ¬ invariants_claimed bad_doc ∧
  NewWordIterator (Some cat_doc) = Ret (mkWordIterator cat_doc 0 0) ∧
  ¬ invariants_claimed cat_doc.
Proof.
  split; [by vm_compute |].
  assert (¬ StronglySorted string_lt (unique_words bad_doc)) as Hwords.
  { intros H. apply StronglySorted_cons in H as [H _].
    apply Forall_cons in H as [[H _] _]. by vm_compute in H. }
  split; [done |]. split; [| split; [| split; [| split]]].
  - intros H. apply Sorted_inv in H as [_ H]. apply HdRel_inv in H. lia.
  - by vm_compute.
  - intros (_ & _ & _ & H & _). done.
  - by vm_compute.
  - intros (_ & _ & _ & _ & (_ & _ & _ & _ & Hlast) & _). by vm_compute in Hlast.
Qed.

(** ** Loading a corpus *)

Lemma LoadCorpus_loop_builds K lines :
  ∀ corpus,
    Forall (builds K) (lines.*1) →
    ∃ docs,
      Forall2 (λ l d, NewDocument l K = Ret d)
        (filter (λ l, 15 < string_len l) (lines.*1)) docs ∧
      LoadCorpus_loop K false corpus lines = Ret (corpus ++ docs).
Proof.
  induction lines as [|[l p] lines IH]; intros corpus Hall; simpl.
  - exists []. split; [constructor | by rewrite app_nil_r].
  - apply Forall_cons in Hall as [Hl Hall]. simpl in Hl. unfold LoadCorpus_line.
    destruct (Z.ltb_spec 15 (string_len l)) as [Hlong | Hshort].
    + destruct (Hl Hlong) as [d Hd]. rewrite Hd. simpl.
      destruct (IH (corpus ++ [d]) Hall) as (docs & Hdocs & ->).
      exists (d :: docs). split.
      * rewrite filter_cons_True by done. by constructor.
      * by rewrite <- app_assoc.
    + simpl. destruct (IH corpus Hall) as (docs & Hdocs & ->).
      exists docs. split; [| done].
      rewrite filter_cons_False by lia. done.
Qed.

Lemma LoadCorpus_loop_fatal K pre :
  ∀ lines corpus l post e,
    lines.*1 = pre ++ l :: post →
    Forall (builds K) pre →
    15 < string_len l → NewDocument l K = Err e →
    LoadCorpus_loop K false corpus lines = Panic (PanicCannotCreate l e).
Proof.
  induction pre as [|l' pre IH]; intros lines corpus l post e Hlines Hpre Hlong He;
    destruct lines as [|[l0 p] lines]; simplify_eq/=.
  - unfold LoadCorpus_line.
    destruct (Z.ltb_spec 15 (string_len l)); [| lia]. by rewrite He.
  - apply Forall_cons in Hpre as [Hl Hpre]. unfold LoadCorpus_line.
    destruct (Z.ltb_spec 15 (string_len l')) as [Hlong' | Hshort]; simpl.
    + destruct (Hl Hlong') as [d ->]. simpl. by eapply IH.
    + by eapply IH.
Qed.

(** C6, as the code has it: a first line longer than the buffer of the
    reader fails the load with the long-line error.  When no read is
    flagged as a prefix, a line of at most 15 bytes is skipped without an
    error and a line of more than 15 bytes is passed to [NewDocument]: the
    first such line that cannot be built is fatal (a panic), and when all
    can be built the load returns their documents, in order, at the end of
    the input and the read error otherwise. *)
Theorem C6_LoadCorpus_lines (r : reader) (K : Z) :
  (∀ l rest, reads r = (l, true) :: rest →
     LoadCorpus (Some r) K = Err (ErrLongLine l)) ∧
  (Forall (λ x, x.2 = false) (reads r) →
   (∀ pre l post e,
      (reads r).*1 = pre ++ l :: post →
      Forall (builds K) pre →
      15 < string_len l → NewDocument l K = Err e →
      LoadCorpus (Some r) K = Panic (PanicCannotCreate l e)) ∧
   (Forall (builds K) ((reads r).*1) →
    ∃ corpus,
      Forall2 (λ l d, NewDocument l K = Ret d)
        (filter (λ l, 15 < string_len l) ((reads r).*1)) corpus ∧
      LoadCorpus (Some r) K =
      match final r with
      | None => Ret corpus
      | Some e => Err (ErrReading e)
      end)).
Proof.
  split.
  - intros l rest Hreads. unfold LoadCorpus. rewrite Hreads. done.
  - intros Hflags.
    assert (match reads r with (_, p) :: _ => p | [] => false end = false) as Hp.
    { destruct (reads r) as [|[l p] rest]; [done |].
      by apply Forall_cons in Hflags as [Hflag _]. }
    unfold LoadCorpus. rewrite Hp. split.
    + intros pre l post e Hlines Hpre Hlong He.
      by rewrite (LoadCorpus_loop_fatal K pre (reads r) [] l post e).
    + intros Hall.
      destruct (LoadCorpus_loop_builds K (reads r) [] Hall) as (docs & Hdocs & ->).
      exists docs. split; [done |]. done.
Qed.

(** C6 as stated fails: a line of exactly 15 bytes that can be built is
    skipped by the code, where the claim has it passed to build_document. *)
Lemma C6_counterexample :
  string_len line15 = 15 ∧
  NewDocument line15 2 = Ret line15_doc ∧
  load_corpus_claimed 2 [] [(line15, false)] = Ret [line15_doc] ∧
  LoadCorpus (Some (mkReader [(line15, false)] None)) 2 = Ret [] ∧
  LoadCorpus (Some (mkReader [(line15, false)] None)) 2 ≠
  load_corpus_claimed 2 [] [(line15, false)].
Proof. repeat split; by vm_compute. Qed.

(** Only the first read is checked for a long line: on a file whose second
    line is longer than the buffer, the load succeeds and the two parts of
    the long line are two documents of the corpus. *)
Example LoadCorpus_long_second_line :
  string_len (repeat_string 1024 "abc ") = 4096 ∧
  (corpus ← LoadCorpus (Some long_second_line) 2;
   Ret (map Length corpus)) = Ret [5; 1024; 6].
Proof. split; by vm_compute. Qed.

(** ** More on the iterator *)

Lemma advance_app a b iter :
  advance (a + b) iter = (iter' ← advance a iter; advance b iter').
Proof.
  revert iter. induction a as [|a IH]; intros iter; simpl; [done |].
  destruct (Next iter); simpl; [apply IH | done | done].
Qed.

Lemma at_end_panics d0 iter :
  iter_inv d0 iter →
  unique_word_index iter = len (unique_words (doc iter)) →
  Next iter = Panic PanicDone ∧ Topic iter = Panic PanicDone ∧
  Word iter = Panic PanicDone ∧ ∀ t, SetTopic t iter = Panic PanicDone.
Proof.
  intros Hinv Hend. unfold Next, Topic, Word, SetTopic.
  rewrite (Done_true d0) by done. done.
Qed.

Lemma Done_cases d0 iter :
  iter_inv d0 iter →
  (Done iter = Ret false ∧ unique_word_index iter < len (unique_words (doc iter))) ∨
  (Done iter = Ret true ∧ unique_word_index iter = len (unique_words (doc iter))).
Proof.
  intros Hinv.
  destruct (decide (unique_word_index iter = len (unique_words (doc iter))))
    as [Heq | Hne].
  - right. split; [by apply (Done_true d0) | done].
  - left. assert (unique_word_index iter < len (unique_words (doc iter)))
      by (destruct Hinv; lia).
    split; [by apply (Done_false d0) | done].
Qed.

(** X1: over a built document with U distinct words, [Next] can be called
    U times and no more: n calls from the start return the iterator at
    position n, with the document untouched, when n is at most U, and
    panic when n is more; the iterator is done exactly at position U. *)
Theorem X1_walk_ends_after_U text K d it0 (n : nat) :
  string_len text ≤ int_max →
  NewDocument text K = Ret d →
  NewWordIterator (Some d) = Ret it0 →
  (Z.of_nat n ≤ len (unique_words d) →
   advance n it0 = Ret (mkWordIterator d (Z.of_nat n) (Z.of_nat n)) ∧
   Done (mkWordIterator d (Z.of_nat n) (Z.of_nat n)) =
   Ret (Z.of_nat n =? len (unique_words d))) ∧
  (len (unique_words d) < Z.of_nat n → advance n it0 = Panic PanicDone).
Proof.
  intros Htext Hd Hit.
  pose proof (built_wf text K d Htext Hd) as Hwf.
  pose proof (NewWordIterator_inv d it0 Hwf Hit) as Hinv.
  apply NewWordIterator_Ret in Hit as [_ ->].
  assert (∀ m : nat, Z.of_nat m ≤ len (unique_words d) →
            advance m (mkWordIterator d 0 0) =
            Ret (mkWordIterator d (Z.of_nat m) (Z.of_nat m)) ∧
            iter_inv d (mkWordIterator d (Z.of_nat m) (Z.of_nat m))) as Hadv.
  { intros m Hm. rewrite (advance_spec d m) by (done || (simpl; lia)). simpl.
    split; [done |]. destruct Hinv. split; simpl in *; try done. lia. }
  split.
  - intros Hn. destruct (Hadv n Hn) as [-> Hinv']. split; [done |].
    by rewrite (Done_inv d).
  - intros Hn.
    replace n with (length (unique_words d) + S (n - S (length (unique_words d))))%nat
      by (unfold len in Hn; lia).
    rewrite advance_app.
    destruct (Hadv (length (unique_words d))) as [-> Hinv']; [unfold len; lia |].
    simpl. destruct (at_end_panics d _ Hinv') as [-> _]; done.
Qed.

Lemma X1_witness :
  (Z.of_nat 5 ≤ len (unique_words cat_doc) →
   advance 5 cat_start = Ret (mkWordIterator cat_doc (Z.of_nat 5) (Z.of_nat 5)) ∧
   Done (mkWordIterator cat_doc (Z.of_nat 5) (Z.of_nat 5)) =
   Ret (Z.of_nat 5 =? len (unique_words cat_doc))) ∧
  (len (unique_words cat_doc) < Z.of_nat 5 → advance 5 cat_start = Panic PanicDone).
Proof.
  apply (X1_walk_ends_after_U cat_text 3 cat_doc cat_start 5); by vm_compute.
Defined.

(** X2: an iterator over a built document that is not done is at the same
    index p in the distinct words and in the labels: [Word] returns the
    p-th distinct word and [Topic] the label at position p. *)
Theorem X2_word_and_topic_at_position text K d it0 ops iter :
  string_len text ≤ int_max →
  NewDocument text K = Ret d →
  NewWordIterator (Some d) = Ret it0 →
  run ops it0 = Ret iter →
  Done iter = Ret false →
  unique_word_index iter = word_topic_index iter ∧
  ∃ w t,
    unique_words d !! Z.to_nat (word_topic_index iter) = Some w ∧
    wordtopics (doc iter) !! Z.to_nat (word_topic_index iter) = Some t ∧
    Word iter = Ret w ∧ Topic iter = Ret t.
Proof.
  intros Htext Hd Hit Hr HD.
  pose proof (reach_inv text K d it0 ops iter Htext Hd Hit Hr) as Hinv.
  apply (not_done d) in HD; [| done].
  destruct (Word_spec d iter Hinv HD) as (w & Hw & HW).
  destruct (Topic_spec d iter Hinv HD) as (t & Ht & _ & HT).
  split; [apply (ii_pos _ _ Hinv) |].
  rewrite (ii_pos _ _ Hinv), (ii_words _ _ Hinv) in Hw. by exists w, t.
Qed.

Lemma X2_witness :
  unique_word_index cat_iter = word_topic_index cat_iter ∧
  ∃ w t,
    unique_words cat_doc !! Z.to_nat (word_topic_index cat_iter) = Some w ∧
    wordtopics (doc cat_iter) !! Z.to_nat (word_topic_index cat_iter) = Some t ∧
    Word cat_iter = Ret w ∧ Topic cat_iter = Ret t.
Proof.
  apply (X2_word_and_topic_at_position cat_text 3 cat_doc cat_start cat_ops);
    by vm_compute.
Defined.

Lemma run_position d0 ops :
  ∀ iter iter',
    iter_inv d0 iter → run ops iter = Ret iter' →
    word_topic_index iter' = word_topic_index iter + count_next ops.
Proof.
  induction ops as [|o ops IH]; intros iter iter' Hinv Hr; simpl in Hr.
  - simplify_eq. simpl. lia.
  - destruct (exec o iter) as [iter1 | |] eqn:He; simpl in Hr; try done.
    pose proof (exec_inv d0 o iter iter1 Hinv He) as Hinv1.
    rewrite (IH iter1 iter' Hinv1 Hr).
    destruct o as [| t | |]; simpl in He |- *.
    + destruct (Next_Ret d0 iter iter1 Hinv He) as [_ ->]. simpl. lia.
    + destruct (SetTopic_Ret d0 iter t iter1 Hinv He) as [Hlt Ht].
      destruct (SetTopic_spec d0 iter t Hinv Hlt Ht) as (old & _ & _ & _ & Heq).
      rewrite Heq in He. by simplify_eq.
    + destruct (Topic iter); simpl in He; by simplify_eq.
    + destruct (Word iter); simpl in He; by simplify_eq.
Qed.

Lemma run_tail d0 ops :
  ∀ iter iter' (i : nat),
    iter_inv d0 iter → run ops iter = Ret iter' →
    len (unique_words d0) ≤ Z.of_nat i →
    wordtopics (doc iter') !! i = wordtopics (doc iter) !! i.
Proof.
  induction ops as [|o ops IH]; intros iter iter' i Hinv Hr Hi; simpl in Hr.
  - by simplify_eq.
  - destruct (exec o iter) as [iter1 | |] eqn:He; simpl in Hr; try done.
    pose proof (exec_inv d0 o iter iter1 Hinv He) as Hinv1.
    rewrite (IH iter1 iter' i Hinv1 Hr Hi).
    destruct (frame_exec d0 o iter iter1 Hinv He) as (_ & _ & _ & _ & Hf).
    destruct o as [| t | |]; try (by rewrite Hf).
    destruct Hf as (old & HT & Hlabels & _). apply Hlabels.
    destruct (SetTopic_Ret d0 iter t iter1 Hinv He) as [Hlt _].
    destruct Hinv as [Hw _ _ _ _ Hpos Hrange]. rewrite Hw in *. lia.
Qed.

(** X3: the occurrences at the positions from U on are out of reach of
    the iterator: whatever the operations, their label is the 0 of
    construction. *)
Theorem X3_labels_from_U_stay_0 text K d it0 ops iter (i : nat) :
  string_len text ≤ int_max →
  NewDocument text K = Ret d →
  NewWordIterator (Some d) = Ret it0 →
  run ops it0 = Ret iter →
  len (unique_words d) ≤ Z.of_nat i < Length d →
  wordtopics (doc iter) !! i = Some 0.
Proof.
  intros Htext Hd Hit Hr Hi.
  pose proof (built_wf text K d Htext Hd) as Hwf.
  pose proof (NewWordIterator_inv d it0 Hwf Hit) as Hinv.
  rewrite (run_tail d ops it0 iter i Hinv Hr) by lia.
  apply NewWordIterator_Ret in Hit as [_ ->]. simpl.
  destruct (built_sizes text K d Htext Hd) as (_ & -> & _).
  apply lookup_replicate_2. lia.
Qed.

Lemma X3_witness : wordtopics (doc cat_iter) !! 5%nat = Some 0.
Proof.
  apply (X3_labels_from_U_stay_0 cat_text 3 cat_doc cat_start cat_ops cat_iter 5);
    by vm_compute.
Defined.

(** X4: the position of an iterator over a built document is the number
    of advances among the operations it has accepted, in both of its
    indices, and that number is at most U. *)
Theorem X4_position_counts_advances text K d it0 ops iter :
  string_len text ≤ int_max →
  NewDocument text K = Ret d →
  NewWordIterator (Some d) = Ret it0 →
  run ops it0 = Ret iter →
  word_topic_index iter = count_next ops ∧
  unique_word_index iter = count_next ops ∧
  0 ≤ count_next ops ≤ len (unique_words d).
Proof.
  intros Htext Hd Hit Hr.
  pose proof (built_wf text K d Htext Hd) as Hwf.
  pose proof (NewWordIterator_inv d it0 Hwf Hit) as Hinv0.
  pose proof (run_position d ops it0 iter Hinv0 Hr) as Hp.
  pose proof (run_inv d ops it0 iter Hinv0 Hr) as Hinv.
  apply NewWordIterator_Ret in Hit as [_ ->]. simpl in Hp.
  destruct Hinv as [Hw _ _ _ _ Hpos Hrange]. rewrite Hw in Hrange. lia.
Qed.

Lemma X4_witness :
  word_topic_index cat_iter = count_next cat_ops ∧
  unique_word_index cat_iter = count_next cat_ops ∧
  0 ≤ count_next cat_ops ≤ len (unique_words cat_doc).
Proof.
  apply (X4_position_counts_advances cat_text 3 cat_doc cat_start cat_ops);
    by vm_compute.
Defined.

(** X5: on an iterator over a built document the only panics are the
    ones the code raises itself.  When it is done, [Next], [Topic], [Word]
    and [SetTopic] panic with the message of [Next]; when it is not, [Next],
    [Topic] and [Word] return, and [SetTopic] returns for a topic of
    [0,K), panics for a negative topic and panics for a topic from K on.
    [Done] returns, and no index is ever out of range. *)
Theorem X5_only_declared_panics text K d it0 ops iter :
  string_len text ≤ int_max →
  NewDocument text K = Ret d →
  NewWordIterator (Some d) = Ret it0 →
  run ops it0 = Ret iter →
  (Done iter = Ret true ∧
   Next iter = Panic PanicDone ∧ Topic iter = Panic PanicDone ∧
   Word iter = Panic PanicDone ∧ ∀ t, SetTopic t iter = Panic PanicDone) ∨
  (Done iter = Ret false ∧
   (∃ iter', Next iter = Ret iter') ∧ (∃ t, Topic iter = Ret t) ∧
   (∃ w, Word iter = Ret w) ∧
   ∀ t, (t < 0 → SetTopic t iter = Panic PanicNegativeTopic) ∧
        (K ≤ t → SetTopic t iter = Panic (PanicTopicTooLarge t)) ∧
        (0 ≤ t < K → ∃ iter', SetTopic t iter = Ret iter')).
Proof.
  intros Htext Hd Hit Hr.
  pose proof (reach_inv text K d it0 ops iter Htext Hd Hit Hr) as Hinv.
  destruct (built_sizes text K d Htext Hd) as (HK & _).
  pose proof (ii_K _ _ Hinv) as HK'.
  destruct (Done_cases d iter Hinv) as [[HD Hlt] | [HD Heq]].
  - right. split; [done |].
    split; [rewrite (Next_spec d) by done; eauto |].
    destruct (Topic_spec d iter Hinv Hlt) as (t & _ & _ & HT).
    destruct (Word_spec d iter Hinv Hlt) as (w & _ & HW).
    split; [eauto |]. split; [eauto |].
    intros u. split; [| split].
    + intros Hu. unfold SetTopic. rewrite HD. simpl.
      destruct (Z.ltb_spec u 0); [done | lia].
    + intros Hu. unfold SetTopic. rewrite HD. simpl.
      destruct (Z.ltb_spec u 0).
      * pose proof (len_nonneg (topic_histogram d)). lia.
      * destruct (Z.leb_spec (len (topic_histogram (doc iter))) u); [done | lia].
    + intros Hu.
      destruct (SetTopic_spec d iter u Hinv Hlt) as (old & _ & _ & _ & Heq);
        [lia | eauto].
  - left. split; [done |]. by apply (at_end_panics d).
Qed.

Lemma X5_witness :
  (Done cat_iter = Ret true ∧
   Next cat_iter = Panic PanicDone ∧ Topic cat_iter = Panic PanicDone ∧
   Word cat_iter = Panic PanicDone ∧ ∀ t, SetTopic t cat_iter = Panic PanicDone) ∨
  (Done cat_iter = Ret false ∧
   (∃ iter', Next cat_iter = Ret iter') ∧ (∃ t, Topic cat_iter = Ret t) ∧
   (∃ w, Word cat_iter = Ret w) ∧
   ∀ t, (t < 0 → SetTopic t cat_iter = Panic PanicNegativeTopic) ∧
        (3 ≤ t → SetTopic t cat_iter = Panic (PanicTopicTooLarge t)) ∧
        (0 ≤ t < 3 → ∃ iter', SetTopic t cat_iter = Ret iter')).
Proof.
  apply (X5_only_declared_panics cat_text 3 cat_doc cat_start cat_ops);
    by vm_compute.
Defined.

Lemma hist_determined (h1 h2 labels : list Z) :
  length h1 = length h2 →
  (∀ t : nat, (t < length h1)%nat → h1 !! t = Some (count (Z.of_nat t) labels)) →
  (∀ t : nat, (t < length h2)%nat → h2 !! t = Some (count (Z.of_nat t) labels)) →
  h1 = h2.
Proof.
  intros Hlen H1 H2. apply list_eq. intros i.
  destruct (decide (i < length h1)%nat) as [Hi | Hi].
  - rewrite H1, H2 by lia. done.
  - rewrite !lookup_ge_None_2 by lia. done.
Qed.

(** Relabelling with the current topic gives back the very same state. *)
Lemma SetTopic_same d0 iter old :
  iter_inv d0 iter → Topic iter = Ret old → SetTopic old iter = Ret iter.
Proof.
  intros Hinv HT.
  assert (unique_word_index iter < len (unique_words (doc iter))) as Hlt.
  { apply (not_done d0); [done |]. unfold Topic in HT.
    destruct (Done iter) as [[] | |]; simpl in HT; done. }
  destruct (Topic_spec d0 iter Hinv Hlt) as (old' & Hold & Hrange & HT').
  rewrite HT in HT'. injection HT' as <-.
  destruct (SetTopic_spec d0 iter old Hinv Hlt Hrange) as (o & HT' & _ & _ & ->).
  rewrite HT in HT'. injection HT' as <-.
  rewrite move_count_same, list_insert_id by done.
  by destruct iter as [[] ? ?].
Qed.

(** A second relabelling at the same position overrides the first. *)
Lemma SetTopic_twice d0 iter t1 t2 it1 :
  iter_inv d0 iter → SetTopic t1 iter = Ret it1 →
  0 ≤ t2 < len (topic_histogram (doc iter)) →
  SetTopic t2 it1 = SetTopic t2 iter.
Proof.
  intros Hinv H1 Ht2.
  destruct (SetTopic_Ret d0 iter t1 it1 Hinv H1) as [Hlt Ht1].
  pose proof (SetTopic_inv d0 iter t1 it1 Hinv H1) as Hinv1.
  destruct (SetTopic_spec d0 iter t1 Hinv Hlt Ht1) as (old & _ & _ & _ & Heq1).
  rewrite Heq1 in H1. injection H1 as <-. simpl in *.
  destruct (SetTopic_spec d0 iter t2 Hinv Hlt Ht2) as (old2 & _ & _ & _ & Heq2).
  destruct (SetTopic_spec d0 _ t2 Hinv1) as (old1 & _ & _ & _ & Heq12); simpl.
  { done. }
  { unfold len in *. by rewrite move_count_length. }
  simpl in Heq12.
  pose proof (SetTopic_inv d0 _ t2 _ Hinv Heq2) as HinvA.
  pose proof (SetTopic_inv d0 _ t2 _ Hinv1 Heq12) as HinvB.
  rewrite Heq12, Heq2. rewrite list_insert_insert_eq.
  do 3 f_equal.
  pose proof (wf_hist _ (ii_wf _ _ HinvA)) as HA.
  pose proof (wf_hist _ (ii_wf _ _ HinvB)) as HB.
  simpl in HA, HB. rewrite list_insert_insert_eq in HB.
  eapply hist_determined; [| exact HB | exact HA].
  by rewrite !move_count_length.
Qed.

(** X6: after [SetTopic(t)] returns, [Topic] returns t; the iterator has
    not moved and is not done. *)
Theorem X6_topic_after_set_topic text K d it0 ops iter t iter' :
  string_len text ≤ int_max →
  NewDocument text K = Ret d →
  NewWordIterator (Some d) = Ret it0 →
  run ops it0 = Ret iter →
  SetTopic t iter = Ret iter' →
  Topic iter' = Ret t ∧
  word_topic_index iter' = word_topic_index iter ∧
  unique_word_index iter' = unique_word_index iter ∧
  Done iter' = Ret false.
Proof.
  intros Htext Hd Hit Hr HS.
  pose proof (reach_inv text K d it0 ops iter Htext Hd Hit Hr) as Hinv.
  pose proof (SetTopic_inv d iter t iter' Hinv HS) as Hinv'.
  destruct (SetTopic_Ret d iter t iter' Hinv HS) as [Hlt Ht].
  destruct (SetTopic_spec d iter t Hinv Hlt Ht) as (old & _ & Hold & _ & Heq).
  rewrite Heq in HS. injection HS as <-. simpl in *.
  split; [| split; [done | split; [done |]]].
  - destruct (Topic_spec d _ Hinv') as (t' & Ht' & _ & ->); [done |].
    simpl in Ht'. rewrite list_lookup_insert_eq in Ht' by (by eapply lookup_lt_Some).
    by injection Ht' as <-.
  - by apply (Done_false d).
Qed.

Lemma X6_witness :
  Topic cat_iter_1 = Ret 1 ∧
  word_topic_index cat_iter_1 = word_topic_index cat_iter ∧
  unique_word_index cat_iter_1 = unique_word_index cat_iter ∧
  Done cat_iter_1 = Ret false.
Proof.
  apply (X6_topic_after_set_topic cat_text 3 cat_doc cat_start cat_ops cat_iter 1);
    by vm_compute.
Defined.

(** X7: of two [SetTopic] calls in a row, at the same position, only the
    second counts: the state after both is the state after the second
    alone.  In particular [SetTopic] is idempotent. *)
Theorem X7_last_set_topic_wins text K d it0 ops iter t1 t2 it1 it2 :
  string_len text ≤ int_max →
  NewDocument text K = Ret d →
  NewWordIterator (Some d) = Ret it0 →
  run ops it0 = Ret iter →
  SetTopic t1 iter = Ret it1 →
  SetTopic t2 it1 = Ret it2 →
  SetTopic t2 iter = Ret it2.
Proof.
  intros Htext Hd Hit Hr H1 H2.
  pose proof (reach_inv text K d it0 ops iter Htext Hd Hit Hr) as Hinv.
  pose proof (SetTopic_inv d iter t1 it1 Hinv H1) as Hinv1.
  destruct (SetTopic_Ret d it1 t2 it2 Hinv1 H2) as [_ Ht2].
  rewrite <- H2. symmetry. apply (SetTopic_twice d iter t1 t2 it1); [done | done |].
  rewrite (ii_K _ _ Hinv1) in Ht2. by rewrite (ii_K _ _ Hinv).
Qed.

Lemma X7_witness : SetTopic 0 cat_iter = Ret cat_iter_0.
Proof.
  apply (X7_last_set_topic_wins cat_text 3 cat_doc cat_start cat_ops cat_iter
           1 0 cat_iter_1); by vm_compute.
Defined.

(** X8: [SetTopic] can be undone: setting back the topic that [Topic]
    returned before the call restores the iterator and the whole document,
    labels and histogram. *)
Theorem X8_set_topic_undone text K d it0 ops iter old t it1 :
  string_len text ≤ int_max →
  NewDocument text K = Ret d →
  NewWordIterator (Some d) = Ret it0 →
  run ops it0 = Ret iter →
  Topic iter = Ret old →
  SetTopic t iter = Ret it1 →
  SetTopic old it1 = Ret iter.
Proof.
  intros Htext Hd Hit Hr HT HS.
  pose proof (reach_inv text K d it0 ops iter Htext Hd Hit Hr) as Hinv.
  destruct (SetTopic_Ret d iter t it1 Hinv HS) as [Hlt _].
  destruct (Topic_spec d iter Hinv Hlt) as (old' & _ & Hrange & HT').
  rewrite HT in HT'. injection HT' as <-.
  rewrite (SetTopic_twice d iter t old it1) by done.
  by apply (SetTopic_same d).
Qed.

Lemma X8_witness : SetTopic 2 cat_iter_1 = Ret cat_iter.
Proof.
  apply (X8_set_topic_undone cat_text 3 cat_doc cat_start cat_ops cat_iter 2 1);
    by vm_compute.
Defined.

(** X9: in every state of an iterator over a built document each label is
    a topic of [0,K) and each entry of the histogram lies between 0 and
    N. *)
Theorem X9_labels_and_counts_in_range text K d it0 ops iter :
  string_len text ≤ int_max →
  NewDocument text K = Ret d →
  NewWordIterator (Some d) = Ret it0 →
  run ops it0 = Ret iter →
  Forall (λ t, 0 ≤ t < K) (wordtopics (doc iter)) ∧
  Forall (λ n, 0 ≤ n ≤ Length d) (topic_histogram (doc iter)).
Proof.
  intros Htext Hd Hit Hr.
  pose proof (reach_inv text K d it0 ops iter Htext Hd Hit Hr) as Hinv.
  destruct (built_sizes text K d Htext Hd) as (HK & _).
  destruct Hinv as [_ _ HN HK' Hwf _ _]. destruct Hwf. split.
  - by rewrite <- HK, <- HK'.
  - apply Forall_lookup. intros u n Hn.
    rewrite wf_hist0 in Hn by (by eapply lookup_lt_Some). injection Hn as <-.
    pose proof (count_bounds (Z.of_nat u) (wordtopics (doc iter))).
    unfold Length. lia.
Qed.

Lemma X9_witness :
  Forall (λ t, 0 ≤ t < 3) (wordtopics (doc cat_iter)) ∧
  Forall (λ n, 0 ≤ n ≤ Length cat_doc) (topic_histogram (doc cat_iter)).
Proof.
  apply (X9_labels_and_counts_in_range cat_text 3 cat_doc cat_start cat_ops);
    by vm_compute.
Defined.




(** ** More on construction *)

Lemma StronglySorted_at {A} (R : relation A) (l : list A) i j x y :
  StronglySorted R l → (i < j)%nat → l !! i = Some x → l !! j = Some y → R x y.
Proof.
  intros Hs. revert i j. induction Hs as [|a l Hs IH Hall]; intros i j Hij Hi Hj.
  - done.
  - destruct j as [|j]; [lia |]. destruct i as [|i]; simplify_eq/=.
    + rewrite Forall_forall in Hall. apply Hall.
      by apply list_elem_of_lookup_2 in Hj.
    + apply (IH i j); [lia | done | done].
Qed.

Lemma built_loop_inv text K d :
  string_len text ≤ int_max → NewDocument text K = Ret d →
  ∃ prev,
    loop_inv (sort_Strings (tokens text)) (sort_Strings (tokens text)) prev
      (unique_words d) (wordtopics_indices d) ∧
    Length d = len (sort_Strings (tokens text)).
Proof.
  intros Htext Hd.
  destruct (NewDocument_Ret text K d Htext Hd) as (_ & _ & prev & Hinv & Hl & _).
  exists prev. split; [done |].
  unfold Length, len. by rewrite Hl, length_replicate.
Qed.

(** X11: the distinct words of a built document are in strictly ascending
    order of bytes, without a repetition, and are exactly the tokens of the
    text. *)
Theorem X11_unique_words_ascending text K d :
  string_len text ≤ int_max →
  NewDocument text K = Ret d →
  StronglySorted string_lt (unique_words d) ∧
  NoDup (unique_words d) ∧
  ∀ w, w ∈ unique_words d ↔ w ∈ tokens text.
Proof.
  intros Htext Hd.
  destruct (built_unique_words text K d Htext Hd) as [Hsorted Helem].
  split; [done |]. split; [by apply StronglySorted_lt_NoDup | done].
Qed.

Lemma X11_witness :
  StronglySorted string_lt (unique_words cat_doc) ∧
  NoDup (unique_words cat_doc) ∧
  ∀ w, w ∈ unique_words cat_doc ↔ w ∈ tokens cat_text.
Proof. apply (X11_unique_words_ascending cat_text 3); by vm_compute. Defined.

(** X12: a built document has at least one distinct word and at most as
    many as occurrences; it has as many exactly when no token of the text
    is repeated.  With X1: the iterator reaches every occurrence exactly
    when no word is repeated. *)
Theorem X12_distinct_words_and_occurrences text K d :
  string_len text ≤ int_max →
  NewDocument text K = Ret d →
  1 ≤ len (unique_words d) ≤ Length d ∧
  (len (unique_words d) = Length d ↔ NoDup (tokens text)).
Proof.
  intros Htext Hd.
  pose proof (built_wf text K d Htext Hd) as Hwf.
  destruct (built_loop_inv text K d Htext Hd) as (prev & Hinv & HL).
  set (ws := sort_Strings (tokens text)) in *.
  pose proof (loop_inv_length _ _ _ _ Hinv) as Hle.
  destruct Hinv as [_ _ _ Hsorted Helem].
  apply StronglySorted_lt_NoDup in Hsorted as Hnodup.
  split; [destruct Hwf; unfold Length; lia |].
  rewrite <- (sort_Strings_perm (tokens text)). fold ws. rewrite HL. split.
  - intros Heq.
    assert (unique_words d ≡ₚ ws) as <-; [| done].
    apply submseteq_length_Permutation.
    + apply NoDup_submseteq; [done |]. intros x. by rewrite Helem.
    + unfold len in Heq. lia.
  - intros Hws.
    assert (length ws ≤ length (unique_words d))%nat.
    { apply submseteq_length, NoDup_submseteq; [done |]. intros x. by rewrite Helem. }
    unfold len. lia.
Qed.

Lemma X12_witness :
  1 ≤ len (unique_words cat_doc) ≤ Length cat_doc ∧
  (len (unique_words cat_doc) = Length cat_doc ↔ NoDup (tokens cat_text)).
Proof. apply (X12_distinct_words_and_occurrences cat_text 3); by vm_compute. Defined.

(** ** Normalisation of the text *)

Lemma string_forallb_app p a b :
  string_forallb p (a +:+ b) = string_forallb p a && string_forallb p b.
Proof.
  induction a as [|c a IH]; simpl; [done |]. rewrite IH. by rewrite andb_assoc.
Qed.

Lemma flush_forall p field :
  string_forallb p field = true →
  Forall (λ w, string_forallb p w = true) (flush field).
Proof. intros H. destruct field; simpl; [constructor | by repeat constructor]. Qed.

(** The fields of a string are made of its bytes that are not white
    space. *)
Lemma Fields_from_forall p s :
  ∀ field,
    string_forallb p field = true →
    string_forallb (λ c, is_space c || p c) s = true →
    Forall (λ w, string_forallb p w = true) (Fields_from field s).
Proof.
  induction s as [|c s IH]; intros field Hfield Hs; simpl in *.
  - by apply flush_forall.
  - apply andb_true_iff in Hs as [Hc Hs]. destruct (is_space c) eqn:Hsp.
    + apply Forall_app. split; [by apply flush_forall | by apply IH].
    + apply IH; [| done]. rewrite string_forallb_app. simpl in *.
      by rewrite Hfield, Hc.
Qed.

Lemma lower_normal c :
  is_symbol c = false → is_space (lower c) || normal_char (lower c) = true.
Proof. destruct c as [[] [] [] [] [] [] [] []]; by vm_compute. Qed.



Lemma normalised_forall text :
  string_forallb (λ c, is_space c || normal_char c)
    (ToLower (RemoveTailingSymbols text)) = true.
Proof.
  unfold RemoveTailingSymbols. induction text as [|c text IH]; simpl; [done |].
  destruct (is_symbol c) eqn:Hc; simpl; [done |].
  by rewrite lower_normal, IH.
Qed.

Lemma tokens_normal text :
  Forall (λ w, string_forallb normal_char w = true) (tokens text).
Proof. apply Fields_from_forall; [done | apply normalised_forall]. Qed.

(** X13: every distinct word of a built document is normalised: it is
    not empty and none of its bytes is white space, one of the symbols
    that [RemoveTailingSymbols] deletes, or an upper case letter. *)
Theorem X13_words_normalised text K d :
  string_len text ≤ int_max →
  NewDocument text K = Ret d →
  Forall (λ w, w ≠ EmptyString ∧ string_forallb normal_char w = true)
    (unique_words d).
Proof.
  intros Htext Hd.
  destruct (built_unique_words text K d Htext Hd) as [_ Helem].
  apply Forall_forall. intros w Hw. apply Helem in Hw.
  pose proof (tokens_nonempty text) as H1. pose proof (tokens_normal text) as H2.
  rewrite Forall_forall in H1, H2. split; [by apply H1 | by apply H2].
Qed.

Lemma X13_witness :
  Forall (λ w, w ≠ EmptyString ∧ string_forallb normal_char w = true)
    (unique_words cat_doc).
Proof. apply (X13_words_normalised cat_text 3); by vm_compute. Defined.

(** What [NewDocument] returns depends on the text through the sorted
    tokens only. *)
Lemma NewDocument_same_tokens text1 text2 K d :
  tokens text1 ≡ₚ tokens text2 →
  NewDocument text1 K = Ret d → NewDocument text2 K = Ret d.
Proof.
  intros Hperm.
  assert (sort_Strings (tokens text1) = sort_Strings (tokens text2)) as Hsort.
  { apply sort_Strings_unique; [| apply sort_Strings_sorted].
    by rewrite sort_Strings_perm. }
  assert (len (tokens text1) = len (tokens text2)) as Hlen
    by (unfold len; by rewrite Hperm).
  unfold NewDocument. fold (tokens text1) (tokens text2).
  destruct (K <=? 1); [done |]. rewrite Hlen.
  destruct (len (tokens text2) <=? 1); [done |].
  by rewrite Hsort.
Qed.

Lemma same_sort_perm l1 l2 : sort_Strings l1 = sort_Strings l2 → l1 ≡ₚ l2.
Proof.
  intros Heq. rewrite <- (sort_Strings_perm l1), <- (sort_Strings_perm l2).
  by rewrite Heq.
Qed.

(** X14: a document is a bag of words: two texts with the same tokens, in
    any order, build the same document. *)
Theorem X14_order_of_words_irrelevant text1 text2 K d :
  tokens text1 ≡ₚ tokens text2 →
  NewDocument text1 K = Ret d ↔ NewDocument text2 K = Ret d.
Proof.
  intros Hperm. split; apply NewDocument_same_tokens; [done |].
  by symmetry.
Qed.

Lemma X14_witness :
  NewDocument cat_text 3 = Ret cat_doc ↔
  NewDocument "the Mat sat; on the cat" 3 = Ret cat_doc.
Proof.
  apply (X14_order_of_words_irrelevant cat_text).
  apply same_sort_perm. by vm_compute.
Defined.



Lemma string_filter_app keep a b :
  string_filter keep (a +:+ b) = string_filter keep a +:+ string_filter keep b.
Proof.
  induction a as [|c a IH]; simpl; [done |].
  destruct (keep c); simpl; by rewrite IH.
Qed.

Lemma string_filter_forall keep s :
  string_forallb keep (string_filter keep s) = true.
Proof.
  induction s as [|c s IH]; simpl; [done |].
  destruct (keep c) eqn:Hc; simpl; [by rewrite Hc |]; done.
Qed.

Lemma string_filter_id keep s :
  string_forallb keep s = true ↔ string_filter keep s = s.
Proof.
  split.
  - induction s as [|c s IH]; simpl; [done |].
    intros [Hc Hs]%andb_true_iff. by rewrite Hc, IH.
  - intros <-. apply string_filter_forall.
Qed.


(** X16: in spite of its name [RemoveTailingSymbols] deletes the symbols
    wherever they are: it distributes over concatenation, its result has
    no symbol, it changes nothing in a string exactly when the string has
    no symbol, and it never makes a string longer. *)
Theorem X16_RemoveTailingSymbols_everywhere (a b : string) :
  RemoveTailingSymbols (a +:+ b) =
  RemoveTailingSymbols a +:+ RemoveTailingSymbols b ∧
  string_forallb (λ c, negb (is_symbol c)) (RemoveTailingSymbols a) = true ∧
  (string_forallb (λ c, negb (is_symbol c)) a = true ↔
   RemoveTailingSymbols a = a) ∧
  (String.length (RemoveTailingSymbols a) ≤ String.length a)%nat.
Proof.
  unfold RemoveTailingSymbols. split; [apply string_filter_app |].
  split; [apply string_filter_forall |].
  split; [apply string_filter_id | apply string_filter_length].
Qed.

(** ** Errors of construction and the fresh iterator *)

Lemma NewDocument_IsValid text K d : NewDocument text K = Ret d → IsValid d = true.
Proof.
  unfold NewDocument. destruct (K <=? 1); [done |].
  destruct (len _ <=? 1); [done |].
  destruct (store _ _ _) as [hist | |]; simpl; try done.
  destruct (NewDocument_loop _ _ _ _ _) as [[uw idx] | |]; simpl; try done.
  destruct (IsValid _) eqn:E; simpl; [| done]. by intros [= <-].
Qed.

(** X17: which error [NewDocument] returns: with fewer than 2 topics the
    error on num_topics, whatever the text; with 2 topics or more and a
    text of fewer than 2 tokens the error on the words, which carries the
    text as given.  The error of the final [IsValid] check is never
    returned, and [NewDocument] never panics. *)
Theorem X17_errors_of_NewDocument text K :
  string_len text ≤ int_max →
  (K ≤ 1 → NewDocument text K = Err ErrNumTopics) ∧
  (1 < K → len (tokens text) ≤ 1 →
   NewDocument text K = Err (ErrTooFewWords text)) ∧
  NewDocument text K ≠ Err ErrInvalidDocument ∧
  (∀ p, NewDocument text K ≠ Panic p).
Proof.
  intros Htext.
  destruct (NewDocument_cases text K Htext)
    as [[HK H] | [(HK & HN & H) | (HK & HN & prev & uw & idx & _ & H)]];
    rewrite H; repeat split; try done; intros; lia.
Qed.

Lemma X17_witness :
  (1 ≤ 1 → NewDocument cat_text 1 = Err ErrNumTopics) ∧
  (1 < 1 → len (tokens cat_text) ≤ 1 →
   NewDocument cat_text 1 = Err (ErrTooFewWords cat_text)) ∧
  NewDocument cat_text 1 ≠ Err ErrInvalidDocument ∧
  (∀ p, NewDocument cat_text 1 ≠ Panic p).
Proof. apply (X17_errors_of_NewDocument cat_text 1). by vm_compute. Defined.

(** X18: a built document can be opened.  The histogram is N followed by
    zeros; the fresh iterator is not done, its topic is 0 and its word is
    the least token of the text in the order of bytes. *)
Theorem X18_fresh_iterator text K d :
  string_len text ≤ int_max →
  NewDocument text K = Ret d →
  topic_histogram d = Length d :: replicate (Z.to_nat K - 1) 0 ∧
  NewWordIterator (Some d) = Ret (mkWordIterator d 0 0) ∧
  Done (mkWordIterator d 0 0) = Ret false ∧
  Topic (mkWordIterator d 0 0) = Ret 0 ∧
  ∃ w, Word (mkWordIterator d 0 0) = Ret w ∧
       w ∈ tokens text ∧ ∀ w', w' ∈ tokens text → string_le w w'.
Proof.
  intros Htext Hd.
  pose proof (built_wf text K d Htext Hd) as Hwf.
  destruct (NewDocument_Ret text K d Htext Hd) as (HK & _ & _ & _ & Hl & Hh).
  destruct (built_unique_words text K d Htext Hd) as [Hsorted Helem].
  assert (NewWordIterator (Some d) = Ret (mkWordIterator d 0 0)) as Hit
    by (unfold NewWordIterator; by rewrite wf_IsValid).
  pose proof (NewWordIterator_inv d _ Hwf Hit) as Hinv.
  assert (unique_word_index (mkWordIterator d 0 0) <
          len (unique_words (doc (mkWordIterator d 0 0)))) as Hlt
    by (destruct Hwf; simpl; lia).
  split; [| split; [done | split; [by apply (Done_false d) | split]]].
  - rewrite Hh. unfold Length, len. rewrite Hl, length_replicate.
    replace (Z.to_nat K) with (S (Z.to_nat K - 1)) at 1 by lia. done.
  - destruct (Topic_spec d _ Hinv Hlt) as (t & Ht & _ & ->). simpl in Ht.
    rewrite Hl in Ht. apply lookup_replicate_1 in Ht as [-> _]. done.
  - destruct (Word_spec d _ Hinv Hlt) as (w & Hw & HW). simpl in Hw.
    change (Z.to_nat 0) with 0%nat in Hw. exists w. split; [done |]. split.
    + apply Helem. by eapply list_elem_of_lookup_2.
    + intros w' Hw'. apply Helem, list_elem_of_lookup in Hw' as [j Hj].
      destruct j as [|j].
      * rewrite Hw in Hj. injection Hj as <-.
        destruct (string_le_total w w); done.
      * destruct (StronglySorted_at string_lt _ 0 (S j) w w' Hsorted);
          [lia | done | done | done].
Qed.

Lemma X18_witness :
  topic_histogram cat_doc = Length cat_doc :: replicate (Z.to_nat 3 - 1) 0 ∧
  NewWordIterator (Some cat_doc) = Ret (mkWordIterator cat_doc 0 0) ∧
  Done (mkWordIterator cat_doc 0 0) = Ret false ∧
  Topic (mkWordIterator cat_doc 0 0) = Ret 0 ∧
  ∃ w, Word (mkWordIterator cat_doc 0 0) = Ret w ∧
       w ∈ tokens cat_text ∧ ∀ w', w' ∈ tokens cat_text → string_le w w'.
Proof. apply (X18_fresh_iterator cat_text 3); by vm_compute. Defined.

(** ** More on loading *)

Lemma LoadCorpus_loop_Ret K p lines :
  ∀ corpus0 corpus,
    LoadCorpus_loop K p corpus0 lines = Ret corpus →
    (lines = [] ∨ p = false) ∧
    ∃ docs,
      corpus = corpus0 ++ docs ∧
      Forall2 (λ l d, NewDocument l K = Ret d)
        (filter (λ l, 15 < string_len l) (lines.*1)) docs.
Proof.
  induction lines as [|[l f] lines IH]; intros corpus0 corpus Hr; simpl in Hr.
  - injection Hr as <-. split; [by left |]. exists [].
    split; [by rewrite app_nil_r | constructor].
  - unfold LoadCorpus_line in Hr. destruct p; [done |].
    split; [by right |]. simpl.
    destruct (Z.ltb_spec 15 (string_len l)) as [Hlong | Hshort].
    + destruct (NewDocument l K) as [d | |] eqn:Hd; simpl in Hr; try done.
      destruct (IH _ _ Hr) as (_ & docs & -> & Hdocs).
      exists (d :: docs). split; [by rewrite <- app_assoc |].
      rewrite filter_cons_True by done. by constructor.
    + simpl in Hr. destruct (IH _ _ Hr) as (_ & docs & -> & Hdocs).
      exists docs. split; [done |]. by rewrite filter_cons_False by lia.
Qed.

Lemma LoadCorpus_Ret r K corpus :
  LoadCorpus (Some r) K = Ret corpus →
  final r = None ∧
  head ((reads r).*2) ≠ Some true ∧
  LoadCorpus_loop K false [] (reads r) = Ret corpus ∧
  Forall2 (λ l d, NewDocument l K = Ret d)
    (filter (λ l, 15 < string_len l) ((reads r).*1)) corpus.
Proof.
  unfold LoadCorpus. intros Hr.
  destruct (LoadCorpus_loop K _ [] (reads r)) as [c | |] eqn:Hloop;
    simpl in Hr; try done.
  destruct (final r); [done |]. injection Hr as ->.
  destruct (LoadCorpus_loop_Ret K _ _ _ _ Hloop) as (Hp & docs & Hc & Hdocs).
  simpl in Hc. subst docs.
  split; [done |].
  destruct (reads r) as [|[l f] lines]; [done |].
  destruct Hp as [? | ->]; [done |]. done.
Qed.

(** X19: when [LoadCorpus] returns a corpus, the input was read to its
    end, the first read was not flagged as a prefix, and the corpus holds,
    in the order of the file, exactly the documents that [NewDocument]
    builds from the lines of more than 15 bytes; each of them passes
    [IsValid], so that an iterator can be opened on it.  After a read
    error or a line that cannot be built no corpus is returned. *)
Theorem X19_loaded_corpus r K corpus :
  LoadCorpus (Some r) K = Ret corpus →
  final r = None ∧
  head ((reads r).*2) ≠ Some true ∧
  Forall2 (λ l d, NewDocument l K = Ret d)
    (filter (λ l, 15 < string_len l) ((reads r).*1)) corpus ∧
  Forall (λ d, IsValid d = true ∧
               NewWordIterator (Some d) = Ret (mkWordIterator d 0 0)) corpus.
Proof.
  intros Hr. destruct (LoadCorpus_Ret r K corpus Hr) as (Hf & Hp & _ & Hdocs).
  split; [done |]. split; [done |]. split; [done |].
  clear Hr. induction Hdocs as [|l d ls ds Hd _ IH]; constructor; [| done].
  apply NewDocument_IsValid in Hd. unfold NewWordIterator. by rewrite Hd.
Qed.

Lemma X19_witness :
  final two_lines = None ∧
  head ((reads two_lines).*2) ≠ Some true ∧
  Forall2 (λ l d, NewDocument l 2 = Ret d)
    (filter (λ l, 15 < string_len l) ((reads two_lines).*1)) [two_lines_doc] ∧
  Forall (λ d, IsValid d = true ∧
               NewWordIterator (Some d) = Ret (mkWordIterator d 0 0))
    [two_lines_doc].
Proof. apply (X19_loaded_corpus two_lines 2). by vm_compute. Defined.

Lemma LoadCorpus_loop_lines K p lines1 :
  ∀ lines2 corpus,
    lines1.*1 = lines2.*1 →
    LoadCorpus_loop K p corpus lines1 = LoadCorpus_loop K p corpus lines2.
Proof.
  induction lines1 as [|[l1 f1] lines1 IH]; intros [|[l2 f2] lines2] corpus Heq;
    simplify_eq/=; [done |].
  destruct (LoadCorpus_line K p corpus l2); simpl; [by apply IH | done | done].
Qed.

(** X20: of the prefix flags of [ReadLine], [LoadCorpus] looks at the first
    only: two inputs with the same lines, the same first flag and the same
    end give the same result, whatever the flags of the other reads. *)
Theorem X20_only_first_flag_counts r1 r2 K :
  (reads r1).*1 = (reads r2).*1 →
  head ((reads r1).*2) = head ((reads r2).*2) →
  final r1 = final r2 →
  LoadCorpus (Some r1) K = LoadCorpus (Some r2) K.
Proof.
  intros Hlines Hflag Hfinal. unfold LoadCorpus.
  rewrite <- Hfinal.
  rewrite (LoadCorpus_loop_lines K _ (reads r1) (reads r2)) by done.
  destruct (reads r1) as [|[l1 f1] ls1], (reads r2) as [|[l2 f2] ls2];
    simplify_eq/=; done.
Qed.

Lemma X20_witness :
  LoadCorpus (Some long_second_line) 2 =
  LoadCorpus
    (Some (mkReader
             [("this line is long enough", false);
              (repeat_string 1024 "abc ", false);
              ("the rest of the long line", false)]
             None)) 2.
Proof. apply X20_only_first_flag_counts; by vm_compute. Defined.

(** X21: with fewer than 2 topics [LoadCorpus] cannot build a document:
    if it returns, the corpus is empty and no line of the file has more
    than 15 bytes. *)
Theorem X21_no_corpus_without_topics r K corpus :
  K ≤ 1 →
  LoadCorpus (Some r) K = Ret corpus →
  corpus = [] ∧ Forall (λ l, string_len l ≤ 15) ((reads r).*1).
Proof.
  intros HK Hr. destruct (LoadCorpus_Ret r K corpus Hr) as (_ & _ & _ & Hdocs).
  assert (∀ l d, NewDocument l K ≠ Ret d) as Hno.
  { intros l d. unfold NewDocument. by destruct (Z.leb_spec K 1); [| lia]. }
  induction ((reads r).*1) as [|l ls IH].
  - apply Forall2_nil_inv_l in Hdocs. by split.
  - destruct (decide (15 < string_len l)) as [Hlong | Hshort].
    + rewrite filter_cons_True in Hdocs by done.
      apply Forall2_cons_inv_l in Hdocs as (d & ds & Hd & _). by apply Hno in Hd.
    + rewrite filter_cons_False in Hdocs by done.
      destruct (IH Hdocs) as [-> Hall]. split; [done |].
      constructor; [lia | done].
Qed.

Lemma X21_witness :
  @nil Document = [] ∧
  Forall (λ l, string_len l ≤ 15)
    ((reads (mkReader [("short", false); (line15, false)] None)).*1).
Proof.
  apply (X21_no_corpus_without_topics
           (mkReader [("short", false); (line15, false)] None) 1 []);
    by vm_compute.
Defined.

Lemma LoadCorpus_loop_app K p lines1 lines2 :
  ∀ corpus,
    LoadCorpus_loop K p corpus (lines1 ++ lines2) =
    (corpus' ← LoadCorpus_loop K p corpus lines1;
     LoadCorpus_loop K p corpus' lines2).
Proof.
  induction lines1 as [|[l f] lines1 IH]; intros corpus; simpl; [done |].
  destruct (LoadCorpus_line K p corpus l); simpl; [apply IH | done | done].
Qed.

Lemma LoadCorpus_loop_shift K lines :
  ∀ corpus corpus' before,
    LoadCorpus_loop K false corpus lines = Ret corpus' →
    LoadCorpus_loop K false (before ++ corpus) lines = Ret (before ++ corpus').
Proof.
  induction lines as [|[l f] lines IH]; intros corpus corpus' before Hr;
    simpl in *.
  - by injection Hr as <-.
  - unfold LoadCorpus_line in *.
    destruct (15 <? string_len l).
    + destruct (NewDocument l K) as [d | |]; simpl in *; try done.
      rewrite <- app_assoc. by apply IH.
    + simpl in *. by apply IH.
Qed.

(** X22: loading composes: when two files load, the file made of the
    lines of the first followed by the lines of the second loads, and its
    corpus is the corpus of the first followed by the corpus of the
    second. *)
Theorem X22_loading_composes r1 r2 K corpus1 corpus2 :
  LoadCorpus (Some r1) K = Ret corpus1 →
  LoadCorpus (Some r2) K = Ret corpus2 →
  LoadCorpus (Some (mkReader (reads r1 ++ reads r2) (final r2))) K =
  Ret (corpus1 ++ corpus2).
Proof.
  intros H1 H2.
  destruct (LoadCorpus_Ret r1 K corpus1 H1) as (_ & Hp1 & Hl1 & _).
  destruct (LoadCorpus_Ret r2 K corpus2 H2) as (Hf2 & Hp2 & Hl2 & _).
  assert (match reads r1 ++ reads r2 with (_, p) :: _ => p | [] => false end
          = false) as Hp.
  { destruct (reads r1) as [|[l f] ls]; simpl in *.
    - destruct (reads r2) as [|[l f] ls]; simpl in *; [done |].
      by destruct f.
    - by destruct f. }
  unfold LoadCorpus. simpl. rewrite Hp, Hf2, LoadCorpus_loop_app, Hl1. simpl.
  pose proof (LoadCorpus_loop_shift K _ _ _ corpus1 Hl2) as Hs.
  rewrite app_nil_r in Hs. by rewrite Hs.
Qed.

Lemma X22_witness :
  LoadCorpus (Some (mkReader (reads two_lines ++ reads two_lines) (final two_lines))) 2 =
  Ret ([two_lines_doc] ++ [two_lines_doc]).
Proof. apply X22_loading_composes; by vm_compute. Defined.

(** ** Joining texts *)

Lemma ToLower_app a b : ToLower (a +:+ b) = ToLower a +:+ ToLower b.
Proof. induction a as [|c a IH]; simpl; [done | by rewrite IH]. Qed.

Lemma string_length_app a b :
  String.length (a +:+ b) = (String.length a + String.length b)%nat.
Proof. induction a as [|c a IH]; simpl; [done | by rewrite IH]. Qed.

Lemma space_kept sp :
  is_space sp = true → is_symbol sp = false ∧ lower sp = sp.
Proof. destruct sp as [[] [] [] [] [] [] [] []]; by vm_compute. Qed.

Lemma Fields_from_app a sp b :
  is_space sp = true →
  ∀ field,
    Fields_from field (a +:+ String sp b) = Fields_from field a ++ Fields b.
Proof.
  intros Hsp. induction a as [|c a IH]; intros field; simpl.
  - by rewrite Hsp.
  - destruct (is_space c); [| apply IH]. by rewrite IH, app_assoc.
Qed.

Lemma tokens_join a sp b :
  is_space sp = true → tokens (a +:+ String sp b) = tokens a ++ tokens b.
Proof.
  intros Hsp. destruct (space_kept sp Hsp) as [Hsym Hlow].
  unfold tokens, RemoveTailingSymbols. rewrite string_filter_app. simpl.
  rewrite Hsym. simpl. rewrite ToLower_app. simpl. rewrite Hlow.
  by apply Fields_from_app.
Qed.

(** X23: joining two texts with a white space byte joins their tokens.
    When both texts build a document, so does the joined text; its
    occurrences are as many as those of the two documents together and its
    distinct words are the distinct words of either. *)
Theorem X23_joined_texts a sp b K da db :
  string_len (a +:+ String sp b) ≤ int_max →
  is_space sp = true →
  NewDocument a K = Ret da →
  NewDocument b K = Ret db →
  tokens (a +:+ String sp b) = tokens a ++ tokens b ∧
  ∃ d,
    NewDocument (a +:+ String sp b) K = Ret d ∧
    Length d = Length da + Length db ∧
    ∀ w, w ∈ unique_words d ↔ w ∈ unique_words da ∨ w ∈ unique_words db.
Proof.
  intros Htext Hsp Ha Hb.
  pose proof (tokens_join a sp b Hsp) as Htok. split; [done |].
  assert (string_len a ≤ int_max ∧ string_len b ≤ int_max) as [Hla Hlb].
  { unfold string_len in *. rewrite string_length_app in Htext. simpl in Htext. lia. }
  destruct (built_starts a K da Hla Ha) as (HLa & _).
  destruct (built_starts b K db Hlb Hb) as (HLb & _).
  destruct (NewDocument_Ret a K da Hla Ha) as (HK & HNa & _).
  destruct (NewDocument_Ret b K db Hlb Hb) as (_ & HNb & _).
  destruct (NewDocument_cases _ K Htext)
    as [[? _] | [(_ & HN & _) | (_ & _ & prev & uw & idx & _ & Hd)]].
  - lia.
  - rewrite Htok, len_app in HN. lia.
  - eexists. split; [exact Hd |].
    destruct (built_starts _ K _ Htext Hd) as (HL & _).
    destruct (built_unique_words _ K _ Htext Hd) as [_ He].
    destruct (built_unique_words a K da Hla Ha) as [_ Hea].
    destruct (built_unique_words b K db Hlb Hb) as [_ Heb].
    split.
    + rewrite HL, Htok, len_app. lia.
    + intros w. rewrite He, Htok, elem_of_app, Hea, Heb. done.
Qed.

Lemma X23_witness :
  tokens ("the cat" +:+ String (byte 32) "sat on the mat") =
  tokens "the cat" ++ tokens "sat on the mat" ∧
  ∃ d,
    NewDocument ("the cat" +:+ String (byte 32) "sat on the mat") 3 = Ret d ∧
    Length d =
    Length (mkDocument ["cat"; "the"] [0; 1] [0; 0] [2; 0; 0]) +
    Length (mkDocument ["mat"; "on"; "sat"; "the"] [0; 1; 2; 3] [0; 0; 0; 0]
              [4; 0; 0]) ∧
    ∀ w, w ∈ unique_words d ↔
         w ∈ unique_words (mkDocument ["cat"; "the"] [0; 1] [0; 0] [2; 0; 0]) ∨
         w ∈ unique_words
               (mkDocument ["mat"; "on"; "sat"; "the"] [0; 1; 2; 3] [0; 0; 0; 0]
                  [4; 0; 0]).
Proof. apply X23_joined_texts; by vm_compute. Defined.

(** X24: a symbol of [SymbolsRegexp] does not separate words: it is deleted
    before the text is split, so the text with the symbol and the text
    without it have the same tokens and build the same document. *)
Theorem X24_symbol_joins_words a c b K d :
  is_symbol c = true →
  tokens (a +:+ String c b) = tokens (a +:+ b) ∧
  (NewDocument (a +:+ String c b) K = Ret d ↔ NewDocument (a +:+ b) K = Ret d).
Proof.
  intros Hc.
  assert (tokens (a +:+ String c b) = tokens (a +:+ b)) as Htok.
  { unfold tokens, RemoveTailingSymbols. rewrite !string_filter_app. simpl.
    by rewrite Hc. }
  split; [done |]. split; apply NewDocument_same_tokens; by rewrite Htok.
Qed.

Lemma X24_witness :
  tokens ("the c" +:+ String (byte 46) "at sat") = tokens ("the c" +:+ "at sat") ∧
  (NewDocument ("the c" +:+ String (byte 46) "at sat") 2 =
   Ret (mkDocument ["cat"; "sat"; "the"] [0; 1; 2] [0; 0; 0] [3; 0]) ↔
   NewDocument ("the c" +:+ "at sat") 2 =
   Ret (mkDocument ["cat"; "sat"; "the"] [0; 1; 2] [0; 0; 0] [3; 0])).
Proof. apply X24_symbol_joins_words. by vm_compute. Defined.
